(** * Cover-tree drivers and insert tree: a shallow embedding

    This development embeds, function by function, the insert tree of
    [ctree/itree.hpp] and the command-line drivers [src/main.cpp] and
    [src/main_mpi.cpp], and proves properties of them.

    Conventions.
    - [Index] (an [int64_t] in the drivers, a template parameter in the
      insert tree) is modelled by [Z].  No arithmetic of the embedded code
      can leave the 64-bit range: every value is a vector size, a vector
      index, or one more than a level of a stored vertex.
    - A [std::vector] is a [list]; [v[i]] is stdpp's lookup [v !! i], and an
      access outside the vector (undefined behaviour in C++) makes the
      embedded function return [None].
    - Output is recorded as a list of events instead of being printed. *)

From Stdlib Require Import Ascii DecimalString.
From Stdlib Require String DecimalPos DecimalZ.
From stdpp Require Import base numbers option list strings.

Local Open Scope Z_scope.

(** ** The insert tree ([ctree/itree.hpp]) *)

Module Itree.

(** The template parameter [Index_]: a signed integer type. *)
Abbreviation Index := Z (only parsing).

Section InsertTree.

Context {Item : Type}.

(** The data members used by [add_vertex], [get_children] and [clear]. *)
Record InsertTree := mkInsertTree {
  vertices : list Item;
  parents  : list Index;
  children : list (list Index);
  levels   : list Index;
  nlevels  : Index
}.

(** Modelled from the spec: the class declaration (and with it the
    constructor) is not part of the sources; a freshly constructed tree has
    no vertex and, by [nlevels = 1 + max level], a level count of 0. *)
Definition empty_tree : InsertTree :=
  {| vertices := []; parents := []; children := []; levels := [];
     nlevels := 0 |}.

(** Modelled from the spec: the accessors [num_vertices()] and
    [num_levels()] are declared in the absent class declaration; they read
    the size of [vertices] and the counter [nlevels]. *)
Definition num_vertices (t : InsertTree) : Index :=
  Z.of_nat (length (vertices t)).

Definition num_levels (t : InsertTree) : Index := nlevels t.

(** [children[parent].push_back(vertex)] *)
Definition push_child (vertex parent : Index) (cs : list (list Index))
  : list (list Index) :=
  alter (λ c, c ++ [vertex]) (Z.to_nat parent) cs.

(** [InsertTree::add_vertex(item, parent)]: the returned id and the state
    after the call, or [None] when [levels[parent]] or [children[parent]]
    is read outside the vector. *)
Definition add_vertex (item : Item) (parent : Index) (t : InsertTree)
  : option (Index * InsertTree) :=
  let vertex := Z.of_nat (length (vertices t)) in
  let vertices1 := vertices t ++ [item] in
  let parents1 := parents t ++ [parent] in
  let children1 := children t ++ [[]] in
  if decide (0 ≤ parent) then
    lp ← levels t !! Z.to_nat parent;
    _ ← children1 !! Z.to_nat parent;
    let level := lp + 1 in
    Some (vertex,
          {| vertices := vertices1;
             parents := parents1;
             children := push_child vertex parent children1;
             levels := levels t ++ [level];
             nlevels := Z.max (level + 1) (nlevels t) |})
  else
    let level := 0 in
    Some (vertex,
          {| vertices := vertices1;
             parents := parents1;
             children := children1;
             levels := levels t ++ [level];
             nlevels := Z.max (level + 1) (nlevels t) |}).


(** [InsertTree::clear()]: three of the four vectors are emptied and the
    counter is reset; [parents] is not touched. *)
Definition clear (t : InsertTree) : InsertTree :=
  {| vertices := [];
     parents := parents t;
     children := [];
     levels := [];
     nlevels := 0 |}.

(** A parent argument that [add_vertex] can use: the no-parent sentinel
    (any negative value) or the id of a vertex already in the tree. *)
Definition valid_parent (t : InsertTree) (parent : Index) : Prop :=
  parent < 0 ∨ parent < num_vertices t.

(** Calls on a tree object, and their execution in sequence. *)
Inductive op :=
  | AddVertex (item : Item) (parent : Index)
  | Clear.

Definition exec (o : op) (t : InsertTree) : option InsertTree :=
  match o with
  | AddVertex item parent => snd <$> add_vertex item parent t
  | Clear => Some (clear t)
  end.

Fixpoint run (ops : list op) (t : InsertTree) : option InsertTree :=
  match ops with
  | [] => Some t
  | o :: ops' => t' ← exec o t; run ops' t'
  end.

(** The three per-vertex tables that [clear] empties stay aligned, and a
    children list only names vertices of the tree. *)
Definition aligned (t : InsertTree) : Prop :=
  length (levels t) = length (vertices t) ∧
  length (children t) = length (vertices t).

Definition children_in_range (t : InsertTree) : Prop :=
  ∀ p cs c, children t !! p = Some cs → c ∈ cs → 0 ≤ c < num_vertices t.

Definition tree_wf (t : InsertTree) : Prop :=
  aligned t ∧ children_in_range t.

(** The parents table has one entry per vertex. *)
Definition parents_aligned (t : InsertTree) : Prop :=
  length (parents t) = length (vertices t).

(** [m] is the largest level stored in the tree. *)
Definition is_max_level (t : InsertTree) (m : Index) : Prop :=
  m ∈ levels t ∧ ∀ l, l ∈ levels t → l ≤ m.

(** The largest element of a list of levels, [-1] for the empty list. *)
Definition max_level (ls : list Index) : Index :=
  foldr Z.max (-1) ls.

(** The tree [t] with the entries [ps] in front of its parents table. *)
Definition with_stale_parents (ps : list Index) (t : InsertTree)
  : InsertTree :=
  {| vertices := vertices t;
     parents := ps ++ parents t;
     children := children t;
     levels := levels t;
     nlevels := nlevels t |}.

(** A tree that was just constructed or just cleared. *)
Definition blank (t : InsertTree) : Prop :=
  vertices t = [] ∧ levels t = [] ∧ children t = [] ∧ nlevels t = 0.

(** All stored levels are non-negative and the counter is one more than
    the largest of them. *)
Definition levels_inv (t : InsertTree) : Prop :=
  (∀ l, l ∈ levels t → 0 ≤ l) ∧ nlevels t = 1 + max_level (levels t).

(** The level count agrees with the stored levels: the tables of levels
    and vertices are aligned, and the count is 0 without a vertex and one
    more than the largest level otherwise. *)
Definition level_count_ok (t : InsertTree) : Prop :=
  length (levels t) = length (vertices t) ∧
  (vertices t = [] → num_levels t = 0) ∧
  (vertices t ≠ [] → ∃ m, is_max_level t m ∧ num_levels t = 1 + m).

End InsertTree.

(** A sequence of calls on a tree of numbers: a root, a chain of two
    vertices under it, a second child of the root, then [clear()] and a new
    root. *)
Definition example_ops : list (@op nat) :=
  [AddVertex 10%nat (-1); AddVertex 11%nat 0; AddVertex 12%nat 1;
   AddVertex 13%nat 0; Clear; AddVertex 14%nat (-1)].

Arguments InsertTree : clear implicits.
Arguments op : clear implicits.

End Itree.

(** ** The C library functions the drivers call *)

Module Libc.

(** [isspace] in the C locale. *)
Definition isspace (c : ascii) : bool :=
  let n := Z.of_nat (nat_of_ascii c) in
  (n =? 32) || ((9 <=? n) && (n <=? 13)).

Definition digit_of (c : ascii) : option Z :=
  let n := Z.of_nat (nat_of_ascii c) in
  if (48 <=? n) && (n <=? 57) then Some (n - 48) else None.

Fixpoint skip_space (s : string) : string :=
  match s with
  | String c s' => if isspace c then skip_space s' else s
  | EmptyString => s
  end.

(** The value of the longest prefix of decimal digits, continuing [acc]. *)
Fixpoint digits (acc : Z) (s : string) : Z :=
  match s with
  | String c s' =>
      match digit_of c with
      | Some d => digits (10 * acc + d) s'
      | None => acc
      end
  | EmptyString => acc
  end.

Definition LONG_MAX : Z := 2 ^ 63 - 1.
Definition LONG_MIN : Z := - 2 ^ 63.

(** [strtol(nptr, NULL, 10)] on an LP64 platform: white space, an optional
    sign, decimal digits; a value outside [long] is clamped. *)
Definition strtol10 (s : string) : Z :=
  let s1 := skip_space s in
  let v :=
    match s1 with
    | String "-" r => - digits 0 r
    | String "+" r => digits 0 r
    | _ => digits 0 s1
    end in
  Z.max LONG_MIN (Z.min LONG_MAX v).

(** Conversion of a [long] to [int]: the low 32 bits, read as signed. *)
Definition to_int (z : Z) : Z :=
  (z + 2 ^ 31) mod 2 ^ 32 - 2 ^ 31.

(** [atoi(nptr)], which glibc defines as [(int) strtol(nptr, NULL, 10)]. *)
Definition atoi (s : string) : Z := to_int (strtol10 s).

End Libc.

(** ** [getopt(3)]

    The drivers call [getopt] with an option string that starts with a
    letter and declares no optional argument.  For such a string the
    function is embedded as glibc documents it.  The scanning position
    ([optind] and glibc's private [nextchar]) and the permutation of [argv]
    are kept as: the characters of the current element still to read, the
    elements not yet looked at, and the non-option elements passed over,
    which end up in front of the remaining ones. *)

Module Getopt.

(** [PERMUTE] is the default; [REQUIRE_ORDER] is in force when the
    environment variable [POSIXLY_CORRECT] is set. *)
Inductive ordering := REQUIRE_ORDER | PERMUTE.

Record getopt_data := mkData {
  nextchar : string;
  remaining : list string;
  passed_over : list string
}.

(** What a call returns: an option character with the value of [optarg]
    ([None] for a null pointer), or -1, after which [argv[optind..argc-1]]
    holds the listed operands. *)
Inductive getopt_ret :=
  | GOpt (c : ascii) (optarg : option string)
  | GEnd (operands : list string).

(** The two messages [getopt] writes to standard error ([opterr] is left
    at its initial non-zero value). *)
Inductive diagnostic :=
  | InvalidOption (c : ascii)
  | RequiresArgument (c : ascii).

(** [strchr(optstring, c)] followed by the test [temp[1] == ':']:
    [None] when [c] is not in the string, otherwise whether the option
    takes an argument. *)
Fixpoint lookup_option (optstring : string) (c : ascii) : option bool :=
  match optstring with
  | EmptyString => None
  | String a rest =>
      if Ascii.eqb a c then
        Some match rest with String ":" _ => true | _ => false end
      else lookup_option rest c
  end.

(** What the scan for the next element to read finds. *)
Inductive scan_result :=
  | Operands (operands : list string)
  | OptionElement (c : ascii) (cluster : string) (rest skipped : list string).

(** The element [--] ends the options; an element that does not start
    with [-], or is [-] alone, is a non-option: passed over under
    [PERMUTE], the first operand under [REQUIRE_ORDER]. *)
Fixpoint scan (ord : ordering) (rest skipped : list string) : scan_result :=
  match rest with
  | [] => Operands skipped
  | arg :: rest' =>
      if String.eqb arg "--" then Operands (skipped ++ rest')
      else
        match arg with
        | String "-" (String c cluster) => OptionElement c cluster rest' skipped
        | _ =>
            match ord with
            | PERMUTE => scan ord rest' (skipped ++ [arg])
            | REQUIRE_ORDER => Operands (skipped ++ arg :: rest')
            end
        end
  end.

(** One option character [c], read in front of [cluster]. *)
Definition take_option (optstring : string) (c : ascii) (cluster : string)
    (rest skipped : list string)
  : getopt_ret * option diagnostic * getopt_data :=
  let known :=
    if Ascii.eqb c ":" || Ascii.eqb c ";" then None
    else lookup_option optstring c in
  match known with
  | None =>
      (GOpt "?" None, Some (InvalidOption c), mkData cluster rest skipped)
  | Some false =>
      (GOpt c None, None, mkData cluster rest skipped)
  | Some true =>
      match cluster with
      | String _ _ =>
          (GOpt c (Some cluster), None, mkData "" rest skipped)
      | EmptyString =>
          match rest with
          | a :: rest' => (GOpt c (Some a), None, mkData "" rest' skipped)
          | [] =>
              (GOpt "?" None, Some (RequiresArgument c),
               mkData "" [] skipped)
          end
      end
  end.

(** One call of [getopt(argc, argv, optstring)]. *)
Definition getopt (ord : ordering) (optstring : string) (d : getopt_data)
  : getopt_ret * option diagnostic * getopt_data :=
  match nextchar d with
  | String c cluster =>
      take_option optstring c cluster (remaining d) (passed_over d)
  | EmptyString =>
      match scan ord (remaining d) (passed_over d) with
      | Operands operands => (GEnd operands, None, mkData "" [] operands)
      | OptionElement c cluster rest skipped =>
          take_option optstring c cluster rest skipped
      end
  end.

(** The state before the first call: [optind = 1]. *)
Definition start (argv : list string) : getopt_data :=
  mkData "" (tail argv) [].

(** A bound on the number of calls that return an option. *)
Definition size_of (l : list string) : nat :=
  foldr (λ a n, S (String.length a + n))%nat 0%nat l.

Definition measure (d : getopt_data) : nat :=
  (String.length (nextchar d) + size_of (remaining d))%nat.

(** Some call of [getopt], repeated from [d], returns the option [c]. *)
Inductive returns (ord : ordering) (optstring : string)
  : getopt_data → ascii → Prop :=
  | returns_now d c a diag d' :
      getopt ord optstring d = (GOpt c a, diag, d') →
      returns ord optstring d c
  | returns_later d c c' a diag d' :
      getopt ord optstring d = (GOpt c' a, diag, d') →
      returns ord optstring d' c →
      returns ord optstring d c.

End Getopt.

(** ** What a process does: events and results *)

Module Process.

Section Events.

Context {err_line msg : Type}.

(** A line on standard error, a line on standard output, a radius query
    issued on the tree, or a file written. *)
Inductive event :=
  | Stderr (e : err_line)
  | Stdout (m : msg)
  | PointQuery (id : Z)
  | FileWrite (name content : string).

(** A computation returns a value, ends the process through [exit], has
    undefined behaviour (a null pointer or an index outside a vector is
    used), or is cut off by the bound on loop iterations. *)
Inductive result (A : Type) :=
  | Return (a : A) (log : list event)
  | Exit (status : Z) (log : list event)
  | Undefined
  | OutOfFuel.

Definition output {A} (r : result A) : list event :=
  match r with
  | Return _ _ log | Exit _ _ log => log
  | _ => []
  end.

(** The same computation after the events [l] have happened. *)
Definition prepend {A} (l : list event) (r : result A) : result A :=
  match r with
  | Return _ a log => Return _ a (l ++ log)
  | Exit _ status log => Exit _ status (l ++ log)
  | Undefined _ => Undefined _
  | OutOfFuel _ => OutOfFuel _
  end.

Definition is_stderr (e : event) : bool :=
  match e with Stderr _ => true | _ => false end.

Definition is_file_write (e : event) : bool :=
  match e with FileWrite _ _ => true | _ => false end.

End Events.

Arguments event : clear implicits.
Arguments result : clear implicits.
Arguments Return {err_line msg A} a log.
Arguments Exit {err_line msg A} status log.
Arguments Undefined {err_line msg A}.
Arguments OutOfFuel {err_line msg A}.

End Process.

(** ** The shared-memory driver ([src/main.cpp]) *)

Module Main.

Import Process.

Abbreviation Index := Z (only parsing).
Abbreviation IndexVector := (list Z) (only parsing).

(** The option string of the call of [getopt]. *)
Definition optstring : string := "r:S:s:t:e:l:o:TAGvh".

(** The option letters of the usage message. *)
Definition documented : list ascii :=
  ["r"; "S"; "s"; "l"; "t"; "o"; "A"; "T"; "G"; "v"; "h"]%char.

(** [std::is_permutation(first1, last1, first2)] as the C++ standard
    specifies it: some permutation of the [last1 - first1] elements that
    start at [first2] equals the first range. *)
Definition is_permutation (l1 l2 : IndexVector) : bool :=
  bool_decide (l1 ≡ₚ take (length l1) l2).

(** The words of a verification verdict. *)
Definition verdict (passed : bool) : string :=
  if passed then "PASSED" else "FAILED".

(** *** What the driver is compiled and run with

    [Real] is [float] or [double] (by the macro [FP_SIZE]) with its
    comparisons and the constants [0.] and [0.5]; [atof] is the C library's;
    points, the distance, the point file reader and the cover tree come
    from headers that are not part of the sources; [ord] is the argument
    ordering in force for [getopt], and [omp_get_num_threads] the team size
    the OpenMP runtime gives for a requested number of threads. *)
Class Env := {
  Real : Type;
  Real_0 : Real;
  Real_0_5 : Real;
  Real_le : Real → Real → bool;
  Real_lt : Real → Real → bool;
  atof : string → Real;
  Point : Type;
  distance : Point → Point → Real;
  read_from_file : string → list Point;
  CoverTree : Type;
  build : list Point → Real → Real → Index → bool → bool → bool → CoverTree;
  num_vertices : CoverTree → Index;
  num_levels : CoverTree → Index;
  is_correct : CoverTree → Real → bool;
  point_query : CoverTree → Point → Real → IndexVector;
  ord : Getopt.ordering;
  omp_get_num_threads : Z → Z
}.

Section Driver.

Context `{Env}.

(** *** Globals *)

Record globals := mkGlobals {
  fname : option string;
  tree_fname : option string;
  radius : Real;
  split_ratio : Real;
  switch_size : Real;
  min_hub_size : Index;
  level_synch : bool;
  verify_tree : bool;
  verify_graph : bool;
  build_graph : bool;
  verbose : bool;
  nthreads : Z
}.

(** The initializers of the globals. *)
Definition initial : globals :=
  {| fname := None; tree_fname := None;
     radius := Real_0; split_ratio := Real_0_5; switch_size := Real_0;
     min_hub_size := 10;
     level_synch := true; verify_tree := false; verify_graph := false;
     build_graph := false; verbose := false; nthreads := 1 |}.

Definition set_fname (v : option string) (g : globals) : globals :=
  mkGlobals v (tree_fname g) (radius g) (split_ratio g) (switch_size g)
    (min_hub_size g) (level_synch g) (verify_tree g) (verify_graph g)
    (build_graph g) (verbose g) (nthreads g).

Definition set_tree_fname (v : option string) (g : globals) : globals :=
  mkGlobals (fname g) v (radius g) (split_ratio g) (switch_size g)
    (min_hub_size g) (level_synch g) (verify_tree g) (verify_graph g)
    (build_graph g) (verbose g) (nthreads g).

Definition set_radius (v : Real) (g : globals) : globals :=
  mkGlobals (fname g) (tree_fname g) v (split_ratio g) (switch_size g)
    (min_hub_size g) (level_synch g) (verify_tree g) (verify_graph g)
    (build_graph g) (verbose g) (nthreads g).

Definition set_split_ratio (v : Real) (g : globals) : globals :=
  mkGlobals (fname g) (tree_fname g) (radius g) v (switch_size g)
    (min_hub_size g) (level_synch g) (verify_tree g) (verify_graph g)
    (build_graph g) (verbose g) (nthreads g).

Definition set_switch_size (v : Real) (g : globals) : globals :=
  mkGlobals (fname g) (tree_fname g) (radius g) (split_ratio g) v
    (min_hub_size g) (level_synch g) (verify_tree g) (verify_graph g)
    (build_graph g) (verbose g) (nthreads g).

Definition set_min_hub_size (v : Index) (g : globals) : globals :=
  mkGlobals (fname g) (tree_fname g) (radius g) (split_ratio g)
    (switch_size g) v (level_synch g) (verify_tree g) (verify_graph g)
    (build_graph g) (verbose g) (nthreads g).

Definition set_level_synch (v : bool) (g : globals) : globals :=
  mkGlobals (fname g) (tree_fname g) (radius g) (split_ratio g)
    (switch_size g) (min_hub_size g) v (verify_tree g) (verify_graph g)
    (build_graph g) (verbose g) (nthreads g).

Definition set_verify_tree (v : bool) (g : globals) : globals :=
  mkGlobals (fname g) (tree_fname g) (radius g) (split_ratio g)
    (switch_size g) (min_hub_size g) (level_synch g) v (verify_graph g)
    (build_graph g) (verbose g) (nthreads g).

Definition set_verify_graph (v : bool) (g : globals) : globals :=
  mkGlobals (fname g) (tree_fname g) (radius g) (split_ratio g)
    (switch_size g) (min_hub_size g) (level_synch g) (verify_tree g) v
    (build_graph g) (verbose g) (nthreads g).

Definition set_build_graph (v : bool) (g : globals) : globals :=
  mkGlobals (fname g) (tree_fname g) (radius g) (split_ratio g)
    (switch_size g) (min_hub_size g) (level_synch g) (verify_tree g)
    (verify_graph g) v (verbose g) (nthreads g).

Definition set_verbose (v : bool) (g : globals) : globals :=
  mkGlobals (fname g) (tree_fname g) (radius g) (split_ratio g)
    (switch_size g) (min_hub_size g) (level_synch g) (verify_tree g)
    (verify_graph g) (build_graph g) v (nthreads g).

Definition set_nthreads (v : Z) (g : globals) : globals :=
  mkGlobals (fname g) (tree_fname g) (radius g) (split_ratio g)
    (switch_size g) (min_hub_size g) (level_synch g) (verify_tree g)
    (verify_graph g) (build_graph g) (verbose g) v.

(** *** Output *)

(** Standard error: a message of [getopt], the line
    ["[err::parse_arguments] missing argument(s)"], or the usage text with
    the values it prints in brackets. *)
Inductive err_line :=
  | ErrGetopt (d : Getopt.diagnostic)
  | ErrMissingArguments
  | ErrUsage (split_ratio switch_size : Real) (min_hub_size : Index)
      (nthreads : Z).

(** Standard output: the [[msg::...]] lines, without the times, the
    commit and the date they carry. *)
Inductive msg :=
  | MsgCmd (omp_num_threads : Z)
  | MsgPointParameters (file : string)
  | MsgCtreeParameters (split_ratio switch_size : Real)
      (min_hub_size : Index) (level_synch verify_tree verbose : bool)
  | MsgGraphParameters (radius : Real) (verify_graph : bool)
  | MsgReadPoints (size : Index) (file : string)
  | MsgConstructedTree (vertices levels size : Index)
  | MsgTreeVerification (word : string)
  | MsgConstructedGraph (vertices edges : Index)
  | MsgGraphVerification (word : string).

Definition ev := event err_line msg.
Definition res := result err_line msg.

(** The lambda [usage]: prints the usage text and exits with [err]. *)
Definition usage {A} (err : Z) (g : globals) (log : list ev) : res A :=
  Exit err
    (log ++ [Stderr (ErrUsage (split_ratio g) (switch_size g)
                       (min_hub_size g) (nthreads g))]).

(** *** [parse_arguments] *)

(** What the body of the option loop does with one value of [c]. *)
Inductive action :=
  | Continue (g : globals)
  | Usage0
  | NullOptarg.

(** A use of [optarg], which is a null pointer when [getopt] has not set
    it. *)
Definition with_optarg (optarg : option string) (f : string → globals)
  : action :=
  match optarg with
  | Some a => Continue (f a)
  | None => NullOptarg
  end.

(** The [if ... else if ...] chain in the body of the loop. *)
Definition handle_option (c : ascii) (optarg : option string) (g : globals)
  : action :=
  if Ascii.eqb c "r" then with_optarg optarg (λ a, set_radius (atof a) g)
  else if Ascii.eqb c "S" then
    with_optarg optarg (λ a, set_split_ratio (atof a) g)
  else if Ascii.eqb c "s" then
    with_optarg optarg (λ a, set_switch_size (atof a) g)
  else if Ascii.eqb c "l" then
    with_optarg optarg (λ a, set_min_hub_size (Libc.atoi a) g)
  else if Ascii.eqb c "t" then
    with_optarg optarg (λ a, set_nthreads (Libc.atoi a) g)
  else if Ascii.eqb c "o" then
    with_optarg optarg (λ a, set_tree_fname (Some a) g)
  else if Ascii.eqb c "A" then Continue (set_level_synch false g)
  else if Ascii.eqb c "T" then Continue (set_verify_tree true g)
  else if Ascii.eqb c "G" then Continue (set_verify_graph true g)
  else if Ascii.eqb c "v" then Continue (set_verbose true g)
  else if Ascii.eqb c "h" then Usage0
  else Continue g.

Definition diagnostics (diag : option Getopt.diagnostic) : list ev :=
  match diag with
  | Some e => [Stderr (ErrGetopt e)]
  | None => []
  end.

(** [while ((c = getopt(argc, argv, optstring)) >= 0) { ... }]: the globals
    and the operands left in [argv] when the loop ends. *)
Fixpoint option_loop (fuel : nat) (d : Getopt.getopt_data) (g : globals)
    (log : list ev) : res (globals * list string) :=
  match fuel with
  | O => OutOfFuel
  | S fuel' =>
      let '(r, diag, d') := Getopt.getopt ord optstring d in
      let log' := log ++ diagnostics diag in
      match r with
      | Getopt.GEnd operands => Return (g, operands) log'
      | Getopt.GOpt c optarg =>
          match handle_option c optarg g with
          | Continue g' => option_loop fuel' d' g' log'
          | Usage0 => usage 0 g log'
          | NullOptarg => Undefined
          end
      end
  end.

(** The lines printed at the end of [parse_arguments]. *)
Definition parameter_lines (file : string) (g : globals) : list ev :=
  [Stdout (MsgCmd (nthreads g));
   Stdout (MsgPointParameters file);
   Stdout (MsgCtreeParameters (split_ratio g) (switch_size g)
             (min_hub_size g) (level_synch g) (verify_tree g) (verbose g))]
  ++ (if build_graph g
      then [Stdout (MsgGraphParameters (radius g) (verify_graph g))]
      else []).

(** The statements of [parse_arguments] that follow the loop;
    [argc - optind] is the number of operands and [argv[optind]] the first
    of them. *)
Definition after_options (g : globals) (operands : list string)
    (log : list ev) : res globals :=
  match operands with
  | [] => usage 1 g (log ++ [Stderr ErrMissingArguments])
  | file :: _ =>
      let g := set_fname (Some file) g in
      let g := set_build_graph (Real_lt Real_0 (radius g)) g in
      let g := set_nthreads (omp_get_num_threads (nthreads g)) g in
      Return g (log ++ parameter_lines file g)
  end.

(** [parse_arguments(argc, argv)], run on the initial globals. *)
Definition parse_arguments (argv : list string) : res globals :=
  let d := Getopt.start argv in
  match option_loop (S (Getopt.measure d)) d initial [] with
  | Return (g, operands) log => after_options g operands log
  | Exit status log => Exit status log
  | Undefined => Undefined
  | OutOfFuel => OutOfFuel
  end.

(** *** [graph_is_correct] *)

(** The inner loop over [j], from [j] on: the indices of the points
    within [radius] of [p], in increasing order. *)
Fixpoint scan_neighbors (p : Point) (radius : Real) (j : Index)
    (pts : list Point) : IndexVector :=
  match pts with
  | [] => []
  | q :: pts' =>
      if Real_le (distance p q) radius
      then j :: scan_neighbors p radius (j + 1) pts'
      else scan_neighbors p radius (j + 1) pts'
  end.

(** The iterations of the outer loop for the indices [ids], with the
    shared flag [correct].  An iteration only reads the points and the
    graph, and the only value it writes to the flag is [false]. *)
Fixpoint check_loop (points : list Point) (radius : Real)
    (graph : list IndexVector) (ids : list Index) (correct : bool)
  : option bool :=
  match ids with
  | [] => Some correct
  | i :: ids' =>
      if negb correct then check_loop points radius graph ids' correct
      else
        gi ← graph !! Z.to_nat i;
        p ← points !! Z.to_nat i;
        let neighbors := scan_neighbors p radius 0 points in
        if bool_decide (length neighbors ≠ length gi)
           || negb (is_permutation neighbors gi)
        then check_loop points radius graph ids' false
        else check_loop points radius graph ids' correct
  end.

(** [graph_is_correct(points, radius, graph)], the iterations taken in
    index order; [None] when [graph[i]] does not exist. *)
Definition graph_is_correct (points : list Point) (radius : Real)
    (graph : list IndexVector) : option bool :=
  let size := Z.of_nat (length points) in
  check_loop points radius graph (seqZ 0 size) true.

(** *** [main] *)

(** The loop that fills [graph] and sums [num_edges]. *)
Definition query_all (ctree : CoverTree) (points : list Point)
    (radius : Real) : list IndexVector :=
  map (λ p, point_query ctree p radius) points.

Definition count_edges (graph : list IndexVector) : Index :=
  foldr (λ nb n, Z.of_nat (length nb) + n) 0 graph.

(** The block guarded by [build_graph]. *)
Definition graph_phase (g : globals) (ctree : CoverTree)
    (points : list Point) (log : list ev) : res unit :=
  let size := Z.of_nat (length points) in
  let graph := query_all ctree points (radius g) in
  let num_edges := count_edges graph in
  let log := log ++ map PointQuery (seqZ 0 size)
                 ++ [Stdout (MsgConstructedGraph size num_edges)] in
  if verify_graph g then
    match graph_is_correct points (radius g) graph with
    | Some correct =>
        Return () (log ++ [Stdout (MsgGraphVerification (verdict correct))])
    | None => Undefined
    end
  else Return () log.

(** The statements of [main] that follow the call of
    [parse_arguments]. *)
Definition main_body (g : globals) (log : list ev) : res Z :=
  match fname g with
  | None => Undefined
  | Some file =>
      let points := read_from_file file in
      let size := Z.of_nat (length points) in
      let log := log ++ [Stdout (MsgReadPoints size file)] in
      let ctree :=
        build points (split_ratio g) (switch_size g) (min_hub_size g)
          (level_synch g) true (verbose g) in
      let log :=
        log ++ [Stdout (MsgConstructedTree (num_vertices ctree)
                          (num_levels ctree) size)] in
      let log :=
        if verify_tree g then
          let passed := is_correct ctree (split_ratio g) in
          log ++ [Stdout (MsgTreeVerification (verdict passed))]
        else log in
      if build_graph g then
        match graph_phase g ctree points log with
        | Return _ log => Return 0 log
        | Exit status log => Exit status log
        | Undefined => Undefined
        | OutOfFuel => OutOfFuel
        end
      else Return 0 log
  end.

(** [main(argc, argv)]: the value it returns. *)
Definition main (argv : list string) : res Z :=
  match parse_arguments argv with
  | Return g log => main_body g log
  | Exit status log => Exit status log
  | Undefined => Undefined
  | OutOfFuel => OutOfFuel
  end.

(** The status the process ends with. *)
Definition exit_status (r : res Z) : option Z :=
  match r with
  | Return status _ | Exit status _ => Some status
  | _ => None
  end.

(** *** Notions used in the statements *)

(** The option loop from the scanning position [d], with the bound
    [parse_arguments] gives it. *)
Definition loop (d : Getopt.getopt_data) (g : globals) (log : list ev)
  : res (globals * list string) :=
  option_loop (S (Getopt.measure d)) d g log.

(** [parse_arguments] and [main] from the scanning position [d], the
    globals [g] and the output [log]. *)
Definition parse_from (d : Getopt.getopt_data) (g : globals)
    (log : list ev) : res globals :=
  match loop d g log with
  | Return (g, operands) log => after_options g operands log
  | Exit status log => Exit status log
  | Undefined => Undefined
  | OutOfFuel => OutOfFuel
  end.

Definition main_from (d : Getopt.getopt_data) (g : globals)
    (log : list ev) : res Z :=
  match parse_from d g log with
  | Return g log => main_body g log
  | Exit status log => Exit status log
  | Undefined => Undefined
  | OutOfFuel => OutOfFuel
  end.

(** The events of [parse_arguments]: lines on standard error and the
    [cmd] and parameter lines. *)
Definition parse_event (e : ev) : bool :=
  match e with
  | Stderr _ => true
  | Stdout (MsgCmd _) | Stdout (MsgPointParameters _)
  | Stdout (MsgCtreeParameters _ _ _ _ _ _)
  | Stdout (MsgGraphParameters _ _) => true
  | _ => false
  end.

(** The events of the rest of [main]: lines on standard output and
    queries. *)
Definition body_event (e : ev) : bool :=
  match e with
  | Stdout _ | PointQuery _ => true
  | _ => false
  end.

(** The globals without the name given with [-o]. *)
Definition forget (g : globals) : globals := set_tree_fname None g.

(** Every list of the graph is a permutation of the brute-force neighbor
    set of its point: it has no repetition and holds exactly the indices
    of the points within the radius. *)
Definition exact_neighbors (points : list Point) (radius : Real)
    (graph : list IndexVector) : Prop :=
  ∀ i p gi,
    points !! i = Some p → graph !! i = Some gi →
    NoDup gi ∧
    ∀ j, j ∈ gi ↔
         ∃ q, 0 ≤ j ∧ points !! Z.to_nat j = Some q ∧
              Real_le (distance p q) radius = true.

End Driver.

End Main.

(** ** The distributed driver ([src/main_mpi.cpp]): the graph output *)

Module MainMpi.

(** [ss << z] for an [Index]: decimal digits, after a [-] for a negative
    number. *)
Definition show (z : Z) : string := NilZero.string_of_int (Z.to_int z).

Definition newline : string := String (ascii_of_nat 10) "".

(** [ss << i+myoffset << " " << j << "\n"] *)
Definition put_edge (ss : string) (src dst : Z) : string :=
  (((ss +:+ show src) +:+ " ") +:+ show dst) +:+ newline.

(** [for (Index j : mygraph[i])] *)
Definition put_row (ss : string) (src : Z) (row : list Z) : string :=
  foldl (λ ss j, put_edge ss src j) ss row.

(** [for (Index i = 0; i < mysize; ++i)], for the indices [ids]; [None]
    when [mygraph[i]] does not exist. *)
Fixpoint put_rows (mygraph : list (list Z)) (myoffset : Z) (ids : list Z)
    (ss : string) : option string :=
  match ids with
  | [] => Some ss
  | i :: ids' =>
      row ← mygraph !! Z.to_nat i;
      put_rows mygraph myoffset ids' (put_row ss (i + myoffset) row)
  end.

(** What a rank holds when the graph has been built. *)
Record rank := mkRank {
  mysize : Z;
  mygraph : list (list Z)
}.

(** Modelled from the spec: [comm.exscan(mysize, myoffset, MPI_SUM, 0)],
    of the absent [mpienv.h], gives a rank "the per-rank [myoffset]
    (exclusive prefix-sum of [mysize])". *)
Definition exscan (sizes : list Z) (k : nat) : Z :=
  foldr Z.add 0 (take k sizes).

(** Modelled from the spec: [comm.gatherv(mybuf, buf, 0)], of the absent
    [mpienv.h]: the buffers are "gathered at rank 0", one rank after the
    other. *)
Definition gatherv (bufs : list string) : string :=
  foldr String.append "" bufs.

(** The buffer [mybuf] of rank [k]. *)
Definition rank_buffer (sizes : list Z) (k : nat) (r : rank)
  : option string :=
  put_rows (mygraph r) (exscan sizes k) (seqZ 0 (mysize r)) "".

(** The buffers of the ranks [k], [k + 1], ... *)
Fixpoint rank_buffers (sizes : list Z) (k : nat) (ranks : list rank)
  : option (list string) :=
  match ranks with
  | [] => Some []
  | r :: ranks' =>
      buf ← rank_buffer sizes k r;
      bufs ← rank_buffers sizes (S k) ranks';
      Some (buf :: bufs)
  end.

(** The block guarded by [build_graph], from the string stream on: the
    name and the content of the file that rank 0 writes. *)
Definition graph_file (ranks : list rank) : option (string * string) :=
  bufs ← rank_buffers (mysize <$> ranks) 0 ranks;
  Some ("dtree.graph.txt", gatherv bufs).

(** One line of the file, and the lines of a list of edges. *)
Definition edge_line (e : Z * Z) : string :=
  show e.1 +:+ " " +:+ show e.2 +:+ newline.

Definition edge_lines (edges : list (Z * Z)) : string :=
  foldr (λ e s, edge_line e +:+ s) "" edges.

(** The edges that rank [k] has computed, under their global source
    ids. *)
Definition computed_edge (ranks : list rank) (e : Z * Z) : Prop :=
  ∃ k r i row,
    ranks !! k = Some r ∧ mygraph r !! i = Some row ∧ e.2 ∈ row ∧
    e.1 = Z.of_nat i + exscan (mysize <$> ranks) k.

(** The edges of the rows [ids] of a rank. *)
Definition row_edges (mygraph : list (list Z)) (myoffset : Z)
    (ids : list Z) : list (Z * Z) :=
  i ← ids; (λ j, (i + myoffset, j)) <$> (mygraph !!! Z.to_nat i).

(** The edges of the ranks [k], [k + 1], ..., rank after rank. *)
Fixpoint ranks_edges (sizes : list Z) (k : nat) (ranks : list rank)
  : list (Z * Z) :=
  match ranks with
  | [] => []
  | r :: ranks' =>
      row_edges (mygraph r) (exscan sizes k)
        (seqZ 0 (Z.of_nat (length (mygraph r))))
      ++ ranks_edges sizes (S k) ranks'
  end.

End MainMpi.

(** ** An environment for examples

    Reals are fixed-point numbers counted in thousandths, points lie on a
    line, every point file holds [points], the tree is the list of its
    points, its verification answers [tree_ok], and a radius query is
    answered by [query]. *)

Module Line.

(** [atof] on a decimal integer. *)
Definition atof (s : string) : Z := 1000 * Libc.strtol10 s.

Definition dist (p q : Z) : Z := Z.abs (p - q).

(** A query that compares the query point with every point. *)
Fixpoint within (p r j : Z) (pts : list Z) : list Z :=
  match pts with
  | [] => []
  | q :: pts' =>
      if dist p q <=? r then j :: within p r (j + 1) pts'
      else within p r (j + 1) pts'
  end.

Definition exact_query (pts : list Z) (p r : Z) : list Z :=
  within p r 0 pts.

(** A query that finds nothing. *)
Definition empty_query (pts : list Z) (p r : Z) : list Z := [].

Definition env (points : list Z) (tree_ok : bool)
    (query : list Z → Z → Z → list Z) : Main.Env :=
  {| Main.Real := Z;
     Main.Real_0 := 0;
     Main.Real_0_5 := 500;
     Main.Real_le := Z.leb;
     Main.Real_lt := Z.ltb;
     Main.atof := atof;
     Main.Point := Z;
     Main.distance := dist;
     Main.read_from_file := λ _, points;
     Main.CoverTree := list Z;
     Main.build := λ pts _ _ _ _ _ _, pts;
     Main.num_vertices := λ t, Z.of_nat (length t);
     Main.num_levels := λ _, 1;
     Main.is_correct := λ _ _, tree_ok;
     Main.point_query := query;
     Main.ord := Getopt.PERMUTE;
     Main.omp_get_num_threads := λ n, n |}.

(** Three points, at 0, 0.5 and 3. *)
Definition three_points : list Z := [0; 500; 3000].

Definition sound : Main.Env := env three_points true exact_query.

Definition faulty : Main.Env := env three_points false empty_query.

End Line.

(** ** Shapes of insert trees *)

Module ItreeShape.

Import Itree.

Section Shape.

Context {Item : Type}.

(** A call of [add_vertex]. *)
Definition is_add (o : op Item) : bool :=
  match o with
  | AddVertex _ _ => true
  | Clear => false
  end.

(** A child has a larger id than its parent and lies one level deeper. *)
Definition children_deeper (t : InsertTree Item) : Prop :=
  ∀ p cs c,
    children t !! p = Some cs → c ∈ cs →
    Z.of_nat p < c ∧
    ∃ lp, levels t !! p = Some lp ∧ levels t !! Z.to_nat c = Some (lp + 1).

(** The level of a vertex is at least 0 and at most its id. *)
Definition levels_bounded (t : InsertTree Item) : Prop :=
  ∀ v l, levels t !! v = Some l → 0 ≤ l ≤ Z.of_nat v.

(** The parents table and the children lists describe the same edges, and
    a vertex without parent has level 0. *)
Definition parents_agree (t : InsertTree Item) : Prop :=
  length (parents t) = length (vertices t) ∧
  (∀ v p, parents t !! v = Some p → 0 ≤ p →
          ∃ cs, children t !! Z.to_nat p = Some cs ∧ Z.of_nat v ∈ cs) ∧
  (∀ v p, parents t !! v = Some p → p < 0 → levels t !! v = Some 0) ∧
  (∀ p cs c, children t !! p = Some cs → c ∈ cs →
             parents t !! Z.to_nat c = Some (Z.of_nat p)).

(** The tree without its parents table. *)
Definition without_parents (t : InsertTree Item) : InsertTree Item :=
  {| vertices := vertices t;
     parents := [];
     children := children t;
     levels := levels t;
     nlevels := nlevels t |}.

End Shape.

(** The tree of the first four calls of [example_ops], and the tree of
    its first two calls. *)
Definition example_tree : InsertTree nat :=
  {| vertices := [10; 11; 12; 13]%nat;
     parents := [-1; 0; 1; 0];
     children := [[1; 3]; [2]; []; []];
     levels := [0; 1; 2; 1];
     nlevels := 3 |}.

Definition example_small_tree : InsertTree nat :=
  {| vertices := [10; 11]%nat;
     parents := [-1; 0];
     children := [[1]; []];
     levels := [0; 1];
     nlevels := 2 |}.

End ItreeShape.

(** ** The distributed driver ([src/main_mpi.cpp]): [parse_arguments] *)

Module MainMpiArgs.

Import Process.

(** The option string of the call of [getopt]. *)
Definition optstring : string := "r:S:s:l:vh".

(** The options that only the shared-memory driver has. *)
Definition shared_memory_only : list ascii :=
  ["t"; "o"; "A"; "T"; "G"]%char.

Section Driver.

(** The reals, [atof] and the ordering of [getopt] are those of the
    shared-memory driver; [Real_100] is the constant [100.] and [rank] the
    value of [comm.rank()] in the calling process. *)
Context `{Main.Env}.
Context (Real_100 : Main.Real) (rank : Z).

Record globals := mkGlobals {
  fname : option string;
  radius : Main.Real;
  split_ratio : Main.Real;
  switch_percent : Main.Real;
  min_hub_size : Z;
  build_graph : bool;
  verbose : bool
}.

(** The initializers of the globals. *)
Definition initial : globals :=
  {| fname := None; radius := Main.Real_0; split_ratio := Main.Real_0_5;
     switch_percent := Real_100; min_hub_size := 10;
     build_graph := false; verbose := false |}.

Definition set_fname (v : option string) (g : globals) : globals :=
  mkGlobals v (radius g) (split_ratio g) (switch_percent g)
    (min_hub_size g) (build_graph g) (verbose g).

Definition set_radius (v : Main.Real) (g : globals) : globals :=
  mkGlobals (fname g) v (split_ratio g) (switch_percent g)
    (min_hub_size g) (build_graph g) (verbose g).

Definition set_split_ratio (v : Main.Real) (g : globals) : globals :=
  mkGlobals (fname g) (radius g) v (switch_percent g)
    (min_hub_size g) (build_graph g) (verbose g).

Definition set_switch_percent (v : Main.Real) (g : globals) : globals :=
  mkGlobals (fname g) (radius g) (split_ratio g) v
    (min_hub_size g) (build_graph g) (verbose g).

Definition set_min_hub_size (v : Z) (g : globals) : globals :=
  mkGlobals (fname g) (radius g) (split_ratio g) (switch_percent g)
    v (build_graph g) (verbose g).

Definition set_build_graph (v : bool) (g : globals) : globals :=
  mkGlobals (fname g) (radius g) (split_ratio g) (switch_percent g)
    (min_hub_size g) v (verbose g).

Definition set_verbose (v : bool) (g : globals) : globals :=
  mkGlobals (fname g) (radius g) (split_ratio g) (switch_percent g)
    (min_hub_size g) (build_graph g) v.

(** Standard error: a message of [getopt], the line on missing
    arguments, or the usage text with the values it prints. *)
Inductive err_line :=
  | ErrGetopt (d : Getopt.diagnostic)
  | ErrMissingArguments
  | ErrUsage (split_ratio switch_percent : Main.Real) (min_hub_size : Z).

(** Standard output: the [[msg::...]] lines, without the number of
    ranks, the commit, the date and the command they carry. *)
Inductive msg :=
  | MsgCmd
  | MsgPointParameters (file : string)
  | MsgCtreeParameters (split_ratio switch_percent : Main.Real)
      (min_hub_size : Z) (verbose : bool)
  | MsgGraphParameters (radius : Main.Real).

Definition ev := event err_line msg.
Definition res := result err_line msg.

(** [!comm.rank()] *)
Definition isroot : bool := bool_decide (rank = 0).

(** The lambda [usage(err, isroot)]: the root prints the usage text, and
    every rank calls [MPIEnv::exit(err)].

    Modelled from the spec: [MPIEnv::exit] is declared in the absent
    [mpienv.h]; it ends the process with the status given ("exit 1 with a
    usage message"). *)
Definition usage {A} (err : Z) (g : globals) (log : list ev) : res A :=
  Exit err
    (log ++ if isroot
            then [Stderr (ErrUsage (split_ratio g) (switch_percent g)
                            (min_hub_size g))]
            else []).

(** What the body of the option loop does with one value of [c]. *)
Inductive action :=
  | Continue (g : globals)
  | Usage0
  | NullOptarg.

Definition with_optarg (optarg : option string) (f : string → globals)
  : action :=
  match optarg with
  | Some a => Continue (f a)
  | None => NullOptarg
  end.

(** The [if ... else if ...] chain in the body of the loop. *)
Definition handle_option (c : ascii) (optarg : option string) (g : globals)
  : action :=
  if Ascii.eqb c "r" then
    with_optarg optarg (λ a, set_radius (Main.atof a) g)
  else if Ascii.eqb c "S" then
    with_optarg optarg (λ a, set_split_ratio (Main.atof a) g)
  else if Ascii.eqb c "s" then
    with_optarg optarg (λ a, set_switch_percent (Main.atof a) g)
  else if Ascii.eqb c "l" then
    with_optarg optarg (λ a, set_min_hub_size (Libc.atoi a) g)
  else if Ascii.eqb c "v" then Continue (set_verbose true g)
  else if Ascii.eqb c "h" then Usage0
  else Continue g.

Definition diagnostics (diag : option Getopt.diagnostic) : list ev :=
  match diag with
  | Some e => [Stderr (ErrGetopt e)]
  | None => []
  end.

(** [while ((c = getopt(argc, argv, optstring)) >= 0) { ... }] *)
Fixpoint option_loop (fuel : nat) (d : Getopt.getopt_data) (g : globals)
    (log : list ev) : res (globals * list string) :=
  match fuel with
  | O => OutOfFuel
  | S fuel' =>
      let '(r, diag, d') := Getopt.getopt Main.ord optstring d in
      let log' := log ++ diagnostics diag in
      match r with
      | Getopt.GEnd operands => Return (g, operands) log'
      | Getopt.GOpt c optarg =>
          match handle_option c optarg g with
          | Continue g' => option_loop fuel' d' g' log'
          | Usage0 => usage 0 g log'
          | NullOptarg => Undefined
          end
      end
  end.

(** The lines that the root prints at the end of [parse_arguments]. *)
Definition parameter_lines (file : string) (g : globals) : list ev :=
  [Stdout MsgCmd;
   Stdout (MsgPointParameters file);
   Stdout (MsgCtreeParameters (split_ratio g) (switch_percent g)
             (min_hub_size g) (verbose g))]
  ++ (if build_graph g then [Stdout (MsgGraphParameters (radius g))]
      else []).

(** The statements that follow the loop. *)
Definition after_options (g : globals) (operands : list string)
    (log : list ev) : res globals :=
  match operands with
  | [] =>
      usage 1 g (log ++ if isroot then [Stderr ErrMissingArguments] else [])
  | file :: _ =>
      let g := set_fname (Some file) g in
      let g := set_build_graph (Main.Real_lt Main.Real_0 (radius g)) g in
      Return g (log ++ if isroot then parameter_lines file g else [])
  end.

(** [parse_arguments(argc, argv, comm)], run on the initial globals. *)
Definition parse_arguments (argv : list string) : res globals :=
  let d := Getopt.start argv in
  match option_loop (S (Getopt.measure d)) d initial [] with
  | Return (g, operands) log => after_options g operands log
  | Exit status log => Exit status log
  | Undefined => Undefined
  | OutOfFuel => OutOfFuel
  end.

(** The option loop from the scanning position [d], with the bound
    [parse_arguments] gives it. *)
Definition loop (d : Getopt.getopt_data) (g : globals) (log : list ev)
  : res (globals * list string) :=
  option_loop (S (Getopt.measure d)) d g log.

(** A message of [getopt]. *)
Definition is_getopt_message (e : ev) : bool :=
  match e with
  | Stderr (ErrGetopt _) => true
  | _ => false
  end.

End Driver.

(** A result without its output. *)
Definition silent {E M A} (r : result E M A) : result E M A :=
  match r with
  | Return a _ => Return a []
  | Exit status _ => Exit status []
  | Undefined => Undefined
  | OutOfFuel => OutOfFuel
  end.

End MainMpiArgs.

(** ** Characters of the graph output *)

Module MainMpiText.

(** The character [c] occurs in [s]. *)
Fixpoint occurs (c : ascii) (s : string) : bool :=
  match s with
  | EmptyString => false
  | String a s' => Ascii.eqb a c || occurs c s'
  end.

(** The character of ["\n"]. *)
Definition newline_char : ascii := ascii_of_nat 10.

(** Reading back what [MainMpi.show] prints. *)
Definition read (s : string) : option Z :=
  Z.of_int <$> NilZero.int_of_string s.

End MainMpiText.

(** * Properties *)

(** ** The insert tree *)

Module ItreeFacts.

Import Itree.

Section Facts.

Context {Item : Type}.

Implicit Types (t : InsertTree Item) (item : Item) (parent : Index).

Lemma blank_empty_tree : blank (@empty_tree Item).
Proof. by repeat split. Qed.

Lemma blank_clear t : blank (clear t).
Proof. by repeat split. Qed.

Lemma blank_wf t : blank t → tree_wf t.
Proof.
  intros (Hv & Hl & Hc & _). split.
  - unfold aligned. by rewrite Hv, Hl, Hc.
  - intros p cs c Hp. rewrite Hc in Hp. done.
Qed.

Lemma blank_levels_inv t : blank t → levels_inv t.
Proof.
  intros (_ & Hl & _ & Hn). split.
  - intros l. rewrite Hl. by intros ?%elem_of_nil.
  - by rewrite Hl, Hn.
Qed.

Lemma max_level_app ls l :
  max_level (ls ++ [l]) = Z.max (max_level ls) (Z.max l (-1)).
Proof.
  unfold max_level. induction ls as [|x ls IH]; simpl; [lia|].
  rewrite IH. lia.
Qed.

Lemma max_level_upper ls l : l ∈ ls → l ≤ max_level ls.
Proof.
  unfold max_level. induction ls as [|x ls IH]; simpl.
  - by intros ?%elem_of_nil.
  - intros [->|Hl]%elem_of_cons; [lia|]. specialize (IH Hl). lia.
Qed.

Lemma max_level_elem ls :
  ls ≠ [] → (∀ l, l ∈ ls → 0 ≤ l) → max_level ls ∈ ls.
Proof.
  unfold max_level. induction ls as [|x ls IH]; [done|]. intros _ Hpos. simpl.
  destruct ls as [|y ls].
  - simpl. assert (0 ≤ x) by apply Hpos, list_elem_of_here.
    replace (Z.max x (-1)) with x by lia. apply list_elem_of_here.
  - destruct (Z.max_spec x (foldr Z.max (-1) (y :: ls))) as [[_ ->]|[_ ->]].
    + apply list_elem_of_further, IH; [done|].
      intros l Hl. by apply Hpos, list_elem_of_further.
    + apply list_elem_of_here.
Qed.

(** With a usable parent the call is defined. *)
Lemma add_vertex_defined item parent t :
  aligned t → valid_parent t parent → is_Some (add_vertex item parent t).
Proof.
  intros [Hl Hc] Hvalid. unfold add_vertex.
  destruct (decide (0 ≤ parent)) as [Hpos|]; [|by eexists].
  destruct Hvalid as [|Hlt]; [lia|]. unfold num_vertices in Hlt.
  destruct (lookup_lt_is_Some_2 (levels t) (Z.to_nat parent)) as [lp ->];
    [lia|].
  destruct (lookup_lt_is_Some_2 (children t ++ [[]]) (Z.to_nat parent))
    as [cs ->]; [rewrite length_app; simpl; lia|].
  by eexists.
Qed.

(** What a defined call returns, case by case. *)
Lemma add_vertex_inv item parent t v t' :
  add_vertex item parent t = Some (v, t') →
  v = num_vertices t ∧
  vertices t' = vertices t ++ [item] ∧
  parents t' = parents t ++ [parent] ∧
  ((parent < 0 ∧ levels t' = levels t ++ [0] ∧
    children t' = children t ++ [[]] ∧
    nlevels t' = Z.max 1 (nlevels t)) ∨
   (0 ≤ parent ∧ ∃ lp,
      levels t !! Z.to_nat parent = Some lp ∧
      levels t' = levels t ++ [lp + 1] ∧
      children t' = push_child v parent (children t ++ [[]]) ∧
      nlevels t' = Z.max (lp + 2) (nlevels t))).
Proof.
  unfold add_vertex. intros Hadd.
  destruct (decide (0 ≤ parent)) as [Hpos|Hneg].
  - destruct (levels t !! Z.to_nat parent) as [lp|] eqn:Hlp; [|done].
    destruct ((children t ++ [[]]) !! Z.to_nat parent) as [cs|]; [|done].
    simpl in Hadd. injection Hadd as <- <-. simpl.
    repeat split; try done. right. split; [done|]. exists lp.
    repeat split; try done. f_equal. lia.
  - injection Hadd as <- <-. simpl. repeat split; try done.
    left. repeat split; try done. lia.
Qed.

(** On aligned tables the call is defined exactly for a usable parent. *)
Lemma add_vertex_defined_iff item parent t :
  aligned t → is_Some (add_vertex item parent t) ↔ valid_parent t parent.
Proof.
  intros Hal. split; [|by apply add_vertex_defined].
  intros [[v t'] (_ & _ & _ & Hcase)%add_vertex_inv].
  destruct Hcase as [[? _]|(_ & lp & Hlp%lookup_lt_Some & _)]; [by left|].
  right. unfold num_vertices. destruct Hal as [<- _]. lia.
Qed.

Lemma add_vertex_aligned item parent t v t' :
  aligned t → add_vertex item parent t = Some (v, t') → aligned t'.
Proof.
  intros [Hl Hc] (_ & Hv & _ & Hcase)%add_vertex_inv. unfold aligned.
  rewrite Hv, length_app. simpl.
  destruct Hcase as [(_ & -> & -> & _)|(_ & lp & _ & -> & -> & _)];
    unfold push_child; rewrite ?length_alter, !length_app; simpl; lia.
Qed.

Lemma add_vertex_children_in_range item parent t v t' :
  tree_wf t → add_vertex item parent t = Some (v, t') →
  children_in_range t'.
Proof.
  intros [[Hl Hc] Hin] (-> & Hv & _ & Hcase)%add_vertex_inv.
  assert (Hold : ∀ p cs c, (children t ++ [[]]) !! p = Some cs → c ∈ cs →
                            0 ≤ c < num_vertices t + 1).
  { intros p cs c Hp Hc'. apply lookup_app_Some in Hp as [Hp|[_ Hp]].
    - specialize (Hin p cs c Hp Hc'). lia.
    - apply list_lookup_singleton_Some in Hp as [_ <-].
      by apply elem_of_nil in Hc'. }
  assert (Hsize : num_vertices t' = num_vertices t + 1).
  { unfold num_vertices. rewrite Hv, length_app. simpl. lia. }
  intros p cs c Hp Hc'. rewrite Hsize.
  destruct Hcase as [(_ & _ & Hch & _)|(_ & lp & _ & _ & Hch & _)];
    rewrite Hch in Hp; [by eapply Hold|].
  unfold push_child in Hp.
  destruct (decide (p = Z.to_nat parent)) as [->|Hne].
  - rewrite list_lookup_alter_eq in Hp.
    destruct ((children t ++ [[]]) !! Z.to_nat parent) as [cs0|] eqn:Hcs0;
      [|done].
    simpl in Hp. injection Hp as <-.
    apply elem_of_app in Hc' as [Hc'|Hc'].
    + by eapply Hold.
    + apply list_elem_of_singleton in Hc' as ->. unfold num_vertices. lia.
  - rewrite list_lookup_alter_ne in Hp by done. by eapply Hold.
Qed.

Lemma add_vertex_wf item parent t v t' :
  tree_wf t → add_vertex item parent t = Some (v, t') → tree_wf t'.
Proof.
  intros Hwf Hadd. split.
  - eapply add_vertex_aligned; [apply Hwf|done].
  - by eapply add_vertex_children_in_range.
Qed.

Lemma add_vertex_levels_inv item parent t v t' :
  levels_inv t → add_vertex item parent t = Some (v, t') → levels_inv t'.
Proof.
  intros [Hpos Hn] (_ & _ & _ & Hcase)%add_vertex_inv.
  destruct Hcase as [(_ & Hl & _ & Hn')|(_ & lp & Hlp & Hl & _ & Hn')].
  - split; rewrite Hl.
    + intros l [?| ->%list_elem_of_singleton]%elem_of_app; [auto|lia].
    + rewrite Hn', Hn, max_level_app. lia.
  - assert (0 ≤ lp) by (eapply Hpos, list_elem_of_lookup_2, Hlp).
    split; rewrite Hl.
    + intros l [?| ->%list_elem_of_singleton]%elem_of_app; [auto|lia].
    + rewrite Hn', Hn, max_level_app. lia.
Qed.

Lemma clear_wf t : tree_wf (clear t).
Proof. apply blank_wf, blank_clear. Qed.

Lemma clear_levels_inv t : levels_inv (clear t).
Proof. apply blank_levels_inv, blank_clear. Qed.

Lemma exec_inv o t t' :
  tree_wf t → levels_inv t → exec o t = Some t' →
  tree_wf t' ∧ levels_inv t'.
Proof.
  intros Hwf Hinv. destruct o as [item parent|]; simpl.
  - destruct (add_vertex item parent t) as [[v t1]|] eqn:Hadd; [|done].
    simpl. intros [= <-]. split.
    + by eapply add_vertex_wf.
    + by eapply add_vertex_levels_inv.
  - intros [= <-]. split; [apply clear_wf|apply clear_levels_inv].
Qed.

Lemma run_inv ops t t' :
  tree_wf t → levels_inv t → run ops t = Some t' →
  tree_wf t' ∧ levels_inv t'.
Proof.
  revert t. induction ops as [|o ops IH]; intros t Hwf Hinv; simpl.
  - by intros [= <-].
  - destruct (exec o t) as [t1|] eqn:Hexec; [|done]. simpl.
    destruct (exec_inv _ _ _ Hwf Hinv Hexec). by apply IH.
Qed.

Lemma run_app ops1 ops2 t :
  run (ops1 ++ ops2) t = run ops1 t ≫= run ops2.
Proof.
  revert t. induction ops1 as [|o ops1 IH]; intros t; simpl; [done|].
  destruct (exec o t); simpl; [apply IH|done].
Qed.

Lemma levels_inv_level_count_ok t :
  tree_wf t → levels_inv t → level_count_ok t.
Proof.
  intros [[Hl Hc] _] [Hpos Hn]. split; [done|]. split.
  - intros Hv. rewrite Hv in Hl. unfold num_levels.
    destruct (levels t); [by rewrite Hn|done].
  - intros Hv. exists (max_level (levels t)). split; [|done].
    assert (levels t ≠ []) by (intros Hnil; rewrite Hnil in Hl;
      by destruct (vertices t)).
    split; [by apply max_level_elem|]. apply max_level_upper.
Qed.

(** C2: [add_vertex(item, parent)] on a well-formed tree with a usable
    parent appends exactly one vertex and returns its id, the number of
    vertices before the call.  With a negative parent the new vertex has
    level 0 and no children list names it; otherwise its id is appended to
    the children list of [parent], all other lists being kept, and its
    level is the level of [parent] plus one. *)
Theorem add_vertex_appends item parent t :
  tree_wf t → valid_parent t parent →
  ∃ t', add_vertex item parent t = Some (num_vertices t, t') ∧
    vertices t' = vertices t ++ [item] ∧
    num_vertices t' = num_vertices t + 1 ∧
    (parent < 0 →
       levels t' = levels t ++ [0] ∧
       children t' = children t ++ [[]] ∧
       ∀ p cs, children t' !! p = Some cs → num_vertices t ∉ cs) ∧
    (0 ≤ parent → ∃ lp cs,
       levels t !! Z.to_nat parent = Some lp ∧
       children t !! Z.to_nat parent = Some cs ∧
       levels t' = levels t ++ [lp + 1] ∧
       levels t' !! Z.to_nat (num_vertices t) = Some (lp + 1) ∧
       children t' !! Z.to_nat parent = Some (cs ++ [num_vertices t]) ∧
       ∀ p, p ≠ Z.to_nat parent →
            children t' !! p = (children t ++ [[]]) !! p).
Proof.
  intros Hwf Hvalid. pose proof Hwf as [[Hl Hc] Hin].
  destruct (add_vertex_defined item parent t (proj1 Hwf) Hvalid)
    as [[v t'] Hadd].
  pose proof (add_vertex_inv _ _ _ _ _ Hadd) as (-> & Hv & _ & Hcase).
  exists t'. split; [done|]. split; [done|]. split.
  { unfold num_vertices. rewrite Hv, length_app. simpl. lia. }
  split.
  - intros Hneg. destruct Hcase as [(_ & Hl' & Hch & _)|[? _]]; [|lia].
    split; [done|]. split; [done|]. intros p cs Hp Hmem. rewrite Hch in Hp.
    apply lookup_app_Some in Hp as [Hp|[_ Hp]].
    + specialize (Hin p cs _ Hp Hmem). lia.
    + apply list_lookup_singleton_Some in Hp as [_ <-].
      by apply elem_of_nil in Hmem.
  - intros Hpos.
    destruct Hcase as [[? _]|(_ & lp & Hlp & Hl' & Hch & _)]; [lia|].
    destruct Hvalid as [|Hlt]; [lia|]. unfold num_vertices in Hlt.
    destruct (lookup_lt_is_Some_2 (children t) (Z.to_nat parent))
      as [cs Hcs]; [lia|].
    exists lp, cs. split; [done|]. split; [done|]. split; [done|].
    split; [|split].
    + rewrite Hl'. unfold num_vertices. rewrite Nat2Z.id, <- Hl.
      rewrite lookup_app_r by lia. by rewrite Nat.sub_diag.
    + rewrite Hch. unfold push_child. rewrite list_lookup_alter_eq.
      rewrite lookup_app_l by lia. by rewrite Hcs.
    + intros p Hp. rewrite Hch. unfold push_child.
      by rewrite list_lookup_alter_ne.
Qed.

(** C8: starting from a tree that was just constructed or cleared, after
    each call of a sequence of defined [add_vertex] and [clear] calls the
    tables of levels and vertices have the same length, [num_levels()] is 0
    when the tree has no vertex and otherwise one more than the largest
    level stored, and [clear()] makes it 0. *)
Theorem num_levels_tracks_max_level t0 ops t :
  blank t0 → run ops t0 = Some t →
  ∀ k, ∃ tk, run (take k ops) t0 = Some tk ∧
             level_count_ok tk ∧ num_levels (clear tk) = 0.
Proof.
  intros Hblank Hrun k.
  rewrite <- (take_drop k ops), run_app in Hrun.
  destruct (run (take k ops) t0) as [tk|] eqn:Hk; [|done].
  exists tk. split; [done|]. split; [|done].
  destruct (run_inv _ _ _ (blank_wf _ Hblank) (blank_levels_inv _ Hblank) Hk).
  by apply levels_inv_level_count_ok.
Qed.

(** Entries in front of the parents table are carried along by every
    call; so after [clear()] a sequence of calls gives the tree that it
    gives from an empty tree, with the parents table of the cleared tree in
    front of its own. *)
Lemma add_vertex_stale_parents ps item parent t :
  add_vertex item parent (with_stale_parents ps t)
  = prod_map id (with_stale_parents ps) <$> add_vertex item parent t.
Proof.
  unfold add_vertex, with_stale_parents. simpl.
  destruct (decide (0 ≤ parent)); simpl.
  - destruct (levels t !! Z.to_nat parent); simpl; [|done].
    destruct ((children t ++ [[]]) !! Z.to_nat parent); simpl; [|done].
    by rewrite (assoc_L (++)).
  - by rewrite (assoc_L (++)).
Qed.

Lemma run_stale_parents ps ops t :
  run ops (with_stale_parents ps t) = with_stale_parents ps <$> run ops t.
Proof.
  revert t. induction ops as [|[item parent|] ops IH]; intros t; simpl;
    [done| |].
  - rewrite add_vertex_stale_parents.
    destruct (add_vertex item parent t) as [[v t']|]; simpl; [apply IH|done].
  - apply (IH (clear t)).
Qed.

Lemma run_after_clear ops t :
  run ops (clear t) = with_stale_parents (parents t) <$> run ops empty_tree.
Proof.
  rewrite <- run_stale_parents. f_equal.
  unfold clear, with_stale_parents. simpl. by rewrite app_nil_r.
Qed.

(** [clear()] leaves the parents table as it is: the table stays aligned
    with the vertices only when it was empty. *)
Lemma clear_parents_aligned t :
  parents_aligned (clear t) ↔ parents t = [].
Proof.
  unfold parents_aligned. simpl. by destruct (parents t).
Qed.

End Facts.

(** The example sequence is defined, and this is the tree it gives. *)
Lemma example_ops_run :
  run example_ops empty_tree
  = Some {| vertices := [14%nat]; parents := [-1; 0; 1; 0; -1];
            children := [[]]; levels := [0]; nlevels := 1 |}.
Proof. reflexivity. Qed.

Lemma example_prefix_wf :
  tree_wf {| vertices := [10%nat; 11%nat]; parents := [-1; 0];
             children := [[1]; []]; levels := [0; 1]; nlevels := 2 |}.
Proof.
  refine (proj1 (run_inv (take 2 example_ops) empty_tree _ _ _ _)).
  - apply blank_wf, blank_empty_tree.
  - apply blank_levels_inv, blank_empty_tree.
  - reflexivity.
Qed.

Lemma add_vertex_appends_witness :
  ∃ t', add_vertex 12%nat 1
          {| vertices := [10%nat; 11%nat]; parents := [-1; 0];
             children := [[1]; []]; levels := [0; 1]; nlevels := 2 |}
        = Some (2, t') ∧ levels t' = [0; 1; 2].
Proof.
  destruct (add_vertex_appends 12%nat 1 _ example_prefix_wf)
    as (t' & Hadd & _ & _ & _ & Hchild).
  - right. reflexivity.
  - exists t'. split; [exact Hadd|].
    destruct Hchild as (lp & cs & Hlp & _ & Hl & _); [lia|].
    injection Hlp as <-. exact Hl.
Defined.

Lemma num_levels_tracks_max_level_witness :
  ∃ tk, run (take 4 example_ops) empty_tree = Some tk ∧
        level_count_ok tk ∧ num_levels (clear tk) = 0.
Proof.
  exact (num_levels_tracks_max_level empty_tree example_ops _
           blank_empty_tree example_ops_run 4%nat).
Defined.

(** C9 (the code departs from it): a root is added, the tree is cleared,
    and a root is added again.  The tree then has one vertex and two
    entries in the parents table, and it differs from the tree that the
    last call alone builds from an empty tree. *)
Lemma clear_then_add_misaligned :
  ∃ t, run [AddVertex 10%nat (-1); Clear; AddVertex 14%nat (-1)] empty_tree
       = Some t ∧
       vertices t = [14%nat] ∧ parents t = [-1; -1] ∧
       ¬ parents_aligned t ∧
       run [AddVertex 14%nat (-1)] empty_tree ≠ Some t.
Proof.
  eexists. split; [reflexivity|]. split; [done|]. split; [done|].
  split; [|done]. unfold parents_aligned. simpl. lia.
Qed.

End ItreeFacts.

(** ** [getopt] *)

Module GetoptFacts.

Import Getopt.

Lemma scan_size ord rest skipped c cluster rest' skipped' :
  scan ord rest skipped = OptionElement c cluster rest' skipped' →
  (String.length cluster + size_of rest' < size_of rest)%nat.
Proof.
  revert skipped. induction rest as [|arg rest IH]; intros skipped; simpl;
    [done|].
  destruct (String.eqb arg "--"); [done|].
  assert (Hnon : match ord with
                 | PERMUTE => scan ord rest (skipped ++ [arg])
                 | REQUIRE_ORDER => Operands (skipped ++ arg :: rest)
                 end = OptionElement c cluster rest' skipped' →
                 (String.length cluster + size_of rest'
                  < S (String.length arg + size_of rest))%nat).
  { destruct ord; [done|]. intros Hscan%IH. lia. }
  destruct arg as [|a [|b arg]]; try done.
  - destruct (Ascii.eqb_spec a "-"); [subst; apply Hnon|].
    destruct a as [[] [] [] [] [] [] [] []]; try apply Hnon; done.
  - destruct (Ascii.eqb_spec a "-") as [->|Hne].
    + intros [= <- <- <- <-]. simpl. lia.
    + destruct a as [[] [] [] [] [] [] [] []]; try apply Hnon; done.
Qed.

Lemma take_option_size optstring c cluster rest skipped r diag d :
  take_option optstring c cluster rest skipped = (r, diag, d) →
  (measure d ≤ String.length cluster + size_of rest)%nat.
Proof.
  unfold take_option, measure.
  destruct (if _ : bool then None else lookup_option optstring c) as [[]|].
  - destruct cluster; [destruct rest|]; intros [= <- <- <-]; simpl; lia.
  - intros [= <- <- <-]. simpl. lia.
  - intros [= <- <- <-]. simpl. lia.
Qed.

(** A call that returns an option character moves the scan forward. *)
Lemma getopt_measure ord optstring d c a diag d' :
  getopt ord optstring d = (GOpt c a, diag, d') →
  (measure d' < measure d)%nat.
Proof.
  unfold getopt. destruct d as [[|c0 cluster] rest skipped]; simpl.
  - destruct (scan ord rest skipped) as [|c1 cl rest1 sk1] eqn:Hscan;
      [done|].
    intros Htake%take_option_size. apply scan_size in Hscan.
    unfold measure at 2. simpl. lia.
  - intros Htake%take_option_size. unfold measure at 2. simpl. lia.
Qed.

(** An option that is declared with an argument comes with one, and
    [?] comes with none. *)
Lemma getopt_optarg ord optstring d c a diag d' :
  getopt ord optstring d = (GOpt c a, diag, d') →
  (a = None ∧ (c = "?"%char ∨ lookup_option optstring c = Some false)) ∨
  (is_Some a ∧ lookup_option optstring c = Some true).
Proof.
  assert (Htake : ∀ c0 cluster rest skipped,
    take_option optstring c0 cluster rest skipped = (GOpt c a, diag, d') →
    (a = None ∧ (c = "?"%char ∨ lookup_option optstring c = Some false)) ∨
    (is_Some a ∧ lookup_option optstring c = Some true)).
  { intros c0 cluster rest skipped. unfold take_option.
    destruct (Ascii.eqb c0 ":" || Ascii.eqb c0 ";"); simpl.
    - intros [= <- <- _ _]. left. split; [done|by left].
    - destruct (lookup_option optstring c0) as [[]|] eqn:Hlook.
      + destruct cluster; [destruct rest|]; intros [= <- <- _ _].
        * left. split; [done|by left].
        * right. split; [by eexists|done].
        * right. split; [by eexists|done].
      + intros [= <- <- _ _]. left. split; [done|by right].
      + intros [= <- <- _ _]. left. split; [done|by left]. }
  unfold getopt. destruct (nextchar d); [|by apply Htake].
  destruct (scan ord (remaining d) (passed_over d)); [done|by apply Htake].
Qed.

(** An element that does not start with [-] is passed over or ends the
    scan. *)
Lemma scan_non_option ord arg rest skipped :
  (∀ s, arg ≠ String "-" s) →
  scan ord (arg :: rest) skipped =
  match ord with
  | PERMUTE => scan ord rest (skipped ++ [arg])
  | REQUIRE_ORDER => Operands (skipped ++ arg :: rest)
  end.
Proof.
  intros Hne. simpl.
  destruct (String.eqb_spec arg "--") as [->|_]; [by destruct (Hne "-")|].
  destruct arg as [|a arg]; [done|].
  destruct (Ascii.eqb_spec a "-") as [->|Hne']; [by destruct (Hne arg)|].
  destruct a as [[] [] [] [] [] [] [] []]; try done.
Qed.

(** When the first call returns -1, no option is ever returned; an option
    is returned by the first call or by a later one. *)
Lemma not_returns_end ord optstring d operands diag d' c :
  getopt ord optstring d = (GEnd operands, diag, d') →
  ¬ returns ord optstring d c.
Proof. intros Hget Hret. destruct Hret; congruence. Qed.

Lemma not_returns_step ord optstring d c' a diag d' c :
  getopt ord optstring d = (GOpt c' a, diag, d') →
  c' ≠ c → ¬ returns ord optstring d' c →
  ¬ returns ord optstring d c.
Proof.
  intros Hget Hne Hnot Hret.
  destruct Hret as [d c a0 diag0 d0 Hnow|d c c0 a0 diag0 d0 Hnow Hlater];
    rewrite Hget in Hnow; injection Hnow as <- <- <- <-;
    [by apply Hne|by apply Hnot].
Qed.

End GetoptFacts.

(** ** The graph output of the distributed driver *)

Module MainMpiFacts.

Import MainMpi.

Lemma append_assoc (s1 s2 s3 : string) :
  (s1 +:+ s2) +:+ s3 = s1 +:+ (s2 +:+ s3).
Proof.
  induction s1 as [|c s1 IH]; [done|].
  change (String c ((s1 +:+ s2) +:+ s3) = String c (s1 +:+ (s2 +:+ s3))).
  by f_equal.
Qed.

Lemma append_nil_r (s : string) : s +:+ "" = s.
Proof.
  induction s as [|c s IH]; [done|].
  change (String c (s +:+ "") = String c s). by f_equal.
Qed.

Lemma edge_lines_cons e es :
  edge_lines (e :: es) = edge_line e +:+ edge_lines es.
Proof. reflexivity. Qed.

Lemma edge_lines_app es1 es2 :
  edge_lines (es1 ++ es2) = edge_lines es1 +:+ edge_lines es2.
Proof.
  induction es1 as [|e es1 IH]; [done|].
  change ((e :: es1) ++ es2) with (e :: (es1 ++ es2)).
  by rewrite !edge_lines_cons, IH, append_assoc.
Qed.

Lemma put_row_lines ss src row :
  put_row ss src row = ss +:+ edge_lines ((λ j, (src, j)) <$> row).
Proof.
  unfold put_row. revert ss. induction row as [|j row IH]; intros ss.
  - simpl. by rewrite append_nil_r.
  - rewrite fmap_cons, edge_lines_cons. cbn [foldl]. rewrite IH.
    unfold put_edge, edge_line. cbn [fst snd]. by rewrite !append_assoc.
Qed.

Lemma put_rows_lines mygraph myoffset ids ss :
  (∀ i, i ∈ ids → 0 ≤ i < Z.of_nat (length mygraph)) →
  put_rows mygraph myoffset ids ss
  = Some (ss +:+ edge_lines (row_edges mygraph myoffset ids)).
Proof.
  revert ss. induction ids as [|i ids IH]; intros ss Hids; simpl.
  - by rewrite append_nil_r.
  - assert (Hi : 0 ≤ i < Z.of_nat (length mygraph))
      by apply Hids, list_elem_of_here.
    destruct (lookup_lt_is_Some_2 mygraph (Z.to_nat i)) as [row Hrow];
      [lia|].
    rewrite Hrow. simpl. rewrite IH
      by (intros; by apply Hids, list_elem_of_further).
    f_equal. unfold row_edges. simpl.
    rewrite put_row_lines, edge_lines_app, append_assoc.
    by rewrite (list_lookup_total_correct _ _ _ Hrow).
Qed.

Lemma elem_of_row_edges mygraph myoffset e :
  e ∈ row_edges mygraph myoffset (seqZ 0 (Z.of_nat (length mygraph))) ↔
  ∃ i row, mygraph !! i = Some row ∧ e.2 ∈ row ∧
           e.1 = Z.of_nat i + myoffset.
Proof.
  unfold row_edges. rewrite list_elem_of_bind. split.
  - intros (i & (j & -> & Hj)%list_elem_of_fmap & Hi%elem_of_seqZ).
    destruct (lookup_lt_is_Some_2 mygraph (Z.to_nat i)) as [row Hrow];
      [lia|].
    rewrite (list_lookup_total_correct _ _ _ Hrow) in Hj.
    exists (Z.to_nat i), row. simpl. split; [done|]. split; [done|lia].
  - intros (i & row & Hrow & Hj & Hsrc). exists (Z.of_nat i).
    rewrite Nat2Z.id, (list_lookup_total_correct _ _ _ Hrow). split.
    + apply list_elem_of_fmap. exists e.2. split; [|done].
      destruct e as [src dst]. simpl in *. by rewrite Hsrc.
    + apply elem_of_seqZ. apply lookup_lt_Some in Hrow. lia.
Qed.

Lemma rank_buffers_lines sizes k ranks :
  Forall (λ r, mysize r = Z.of_nat (length (mygraph r))) ranks →
  ∃ bufs, rank_buffers sizes k ranks = Some bufs ∧
          gatherv bufs = edge_lines (ranks_edges sizes k ranks).
Proof.
  revert k. induction ranks as [|r ranks IH]; intros k Hsizes; simpl.
  - by exists [].
  - apply Forall_cons in Hsizes as [Hr Hsizes].
    destruct (IH (S k) Hsizes) as (bufs & -> & Hbufs).
    unfold rank_buffer. rewrite Hr, put_rows_lines
      by (intros i Hi%elem_of_seqZ; lia).
    simpl. eexists. split; [done|]. simpl.
    by rewrite Hbufs, edge_lines_app.
Qed.

Lemma elem_of_ranks_edges sizes k ranks e :
  e ∈ ranks_edges sizes k ranks ↔
  ∃ n r i row,
    ranks !! n = Some r ∧ mygraph r !! i = Some row ∧ e.2 ∈ row ∧
    e.1 = Z.of_nat i + exscan sizes (k + n).
Proof.
  revert k. induction ranks as [|r ranks IH]; intros k; simpl.
  - split; [by intros ?%elem_of_nil|by intros (? & ? & ? & ? & ? & _)].
  - rewrite elem_of_app, elem_of_row_edges, IH. split.
    + intros [(i & row & ? & ? & ?)|(n & r' & i & row & ? & ? & ? & ?)].
      * exists 0%nat, r, i, row. by rewrite Nat.add_0_r.
      * exists (S n), r', i, row. by rewrite Nat.add_succ_r.
    + intros ([|n] & r' & i & row & Hr & ? & ? & Hsrc); simpl in Hr.
      * injection Hr as <-. left. exists i, row.
        by rewrite Nat.add_0_r in Hsrc.
      * right. exists n, r', i, row. by rewrite Nat.add_succ_r in Hsrc.
Qed.

(** When every rank holds one row per point, the file that rank 0 writes
    is [dtree.graph.txt]; it consists of one line [src dst] per edge of
    some list of edges, and the edges of that list are the computed
    ones. *)
Lemma graph_file_complete ranks :
  Forall (λ r, mysize r = Z.of_nat (length (mygraph r))) ranks →
  ∃ edges,
    graph_file ranks = Some ("dtree.graph.txt", edge_lines edges) ∧
    ∀ e, e ∈ edges ↔ computed_edge ranks e.
Proof.
  intros Hsizes. unfold graph_file.
  destruct (rank_buffers_lines (mysize <$> ranks) 0 ranks Hsizes)
    as (bufs & -> & Hbufs).
  exists (ranks_edges (mysize <$> ranks) 0 ranks). simpl.
  split; [by rewrite Hbufs|]. intros e. apply elem_of_ranks_edges.
Qed.

End MainMpiFacts.

(** ** The shared-memory driver *)

Module MainFacts.

Import Process Main.

(** Case analysis on the next test [c == k] of the chain. *)
Ltac case_option_char c :=
  match goal with
  | |- context [Ascii.eqb c ?k] =>
      destruct (Ascii.eqb_spec c k) as [->|?]
  end.

Section Facts.

Context `{Env}.

Implicit Types (g : globals) (log : list ev) (d : Getopt.getopt_data).

(** *** The option loop *)

Lemma option_loop_fuel fuel1 fuel2 d g log :
  (Getopt.measure d < fuel1)%nat → (Getopt.measure d < fuel2)%nat →
  option_loop fuel1 d g log = option_loop fuel2 d g log.
Proof.
  revert fuel2 d g log.
  induction fuel1 as [|fuel1 IH]; intros [|fuel2] d g log H1 H2; try lia.
  simpl. destruct (Getopt.getopt ord optstring d) as [[r diag] d'] eqn:Hget.
  destruct r as [c a|operands]; [|done].
  apply GetoptFacts.getopt_measure in Hget.
  destruct (handle_option c a g); [|done..]. apply IH; lia.
Qed.

Lemma loop_unfold d g log :
  loop d g log =
  let '(r, diag, d') := Getopt.getopt ord optstring d in
  let log' := log ++ diagnostics diag in
  match r with
  | Getopt.GEnd operands => Return (g, operands) log'
  | Getopt.GOpt c optarg =>
      match handle_option c optarg g with
      | Continue g' => loop d' g' log'
      | Usage0 => usage 0 g log'
      | NullOptarg => Undefined
      end
  end.
Proof.
  unfold loop at 1. simpl.
  destruct (Getopt.getopt ord optstring d) as [[r diag] d'] eqn:Hget.
  destruct r as [c a|operands]; [|done].
  apply GetoptFacts.getopt_measure in Hget.
  destruct (handle_option c a g); [|done..].
  apply option_loop_fuel; lia.
Qed.

Lemma option_loop_prepend fuel d g l log :
  option_loop fuel d g (l ++ log) = prepend l (option_loop fuel d g log).
Proof.
  revert d g log. induction fuel as [|fuel IH]; intros d g log; simpl;
    [done|].
  destruct (Getopt.getopt ord optstring d) as [[r diag] d'].
  rewrite <- (assoc_L (++)).
  destruct r as [c a|operands]; [|done].
  destruct (handle_option c a g); [apply IH| |done].
  unfold usage. simpl. by rewrite <- (assoc_L (++)).
Qed.

Lemma handle_option_null c a g :
  handle_option c a g = NullOptarg →
  a = None ∧ c ≠ "?"%char ∧ Getopt.lookup_option optstring c = Some true.
Proof.
  unfold handle_option.
  repeat (case_option_char c;
          [destruct a;
           first [done|intros _; split; [done|split; [done|reflexivity]]]|]).
  done.
Qed.

(** The loop ends: with the operands, or through [usage(0)]. *)
Lemma option_loop_ends fuel d g log :
  (Getopt.measure d < fuel)%nat →
  (∃ g' operands log',
     option_loop fuel d g log = Return (g', operands) (log ++ log')) ∨
  (∃ g' log', option_loop fuel d g log = usage 0 g' (log ++ log')).
Proof.
  revert d g log. induction fuel as [|fuel IH]; intros d g log Hfuel;
    [lia|].
  simpl. destruct (Getopt.getopt ord optstring d) as [[r diag] d'] eqn:Hget.
  destruct r as [c a|operands]; [|left; by eexists _, _, _].
  pose proof (GetoptFacts.getopt_measure _ _ _ _ _ _ _ Hget).
  destruct (handle_option c a g) as [g'| |] eqn:Hopt.
  - destruct (IH d' g' (log ++ diagnostics diag)) as
      [(g1 & ops & log1 & ->)|(g1 & log1 & ->)]; [lia| |].
    + left. exists g1, ops, (diagnostics diag ++ log1).
      by rewrite (assoc_L (++)).
    + right. exists g1, (diagnostics diag ++ log1).
      by rewrite (assoc_L (++)).
  - right. by exists g, (diagnostics diag).
  - apply handle_option_null in Hopt as (-> & Hc & Hlook).
    apply GetoptFacts.getopt_optarg in Hget as [[_ [?|?]]|[[? ?] _]];
      congruence.
Qed.

(** [parse_arguments] returns with a file name, or exits with status 0
    after the usage text, or exits with status 1 after the line on
    missing arguments and the usage text. *)
Lemma parse_arguments_cases argv :
  (∃ g log file, parse_arguments argv = Return g log ∧
                 fname g = Some file ∧
                 build_graph g = Real_lt Real_0 (radius g)) ∨
  (∃ g log, parse_arguments argv = usage 0 g log) ∨
  (∃ g log, parse_arguments argv
            = usage 1 g (log ++ [Stderr ErrMissingArguments])).
Proof.
  unfold parse_arguments.
  destruct (option_loop_ends (S (Getopt.measure (Getopt.start argv)))
              (Getopt.start argv) initial [])
    as [(g & ops & log & ->)|(g & log & ->)]; [lia| |].
  - destruct ops as [|file ops].
    + right. right. by eexists _, _.
    + left. by eexists _, _, file.
  - right. left. by eexists _, _.
Qed.

(** *** [graph_is_correct] *)

Lemma elem_of_scan_neighbors p r j pts x :
  x ∈ scan_neighbors p r j pts ↔
  ∃ k q, pts !! k = Some q ∧ x = j + Z.of_nat k ∧
         Real_le (distance p q) r = true.
Proof.
  revert j. induction pts as [|q pts IH]; intros j; simpl.
  - split; [by intros ?%elem_of_nil|by intros (k & ? & ? & _)].
  - assert (Hrest : x ∈ scan_neighbors p r (j + 1) pts ↔
      ∃ k q', (q :: pts) !! S k = Some q' ∧ x = j + Z.of_nat (S k) ∧
              Real_le (distance p q') r = true).
    { rewrite IH. split; intros (k & q' & Hk & -> & Hle);
        exists k, q'; (split; [done|split; [lia|done]]). }
    destruct (Real_le (distance p q) r) eqn:Hq.
    + rewrite elem_of_cons, Hrest. split.
      * intros [->|(k & q' & ?)]; [|by exists (S k), q'].
        exists 0%nat, q. split; [done|]. split; [lia|done].
      * intros ([|k] & q' & Hk & Hx & Hle); [left; simpl in Hx; lia|].
        right. by exists k, q'.
    + rewrite Hrest. split.
      * intros (k & q' & ?). by exists (S k), q'.
      * intros ([|k] & q' & Hk & Hx & Hle); [|by exists k, q'].
        simpl in Hk. injection Hk as <-. congruence.
Qed.

Lemma NoDup_scan_neighbors p r j pts : NoDup (scan_neighbors p r j pts).
Proof.
  revert j. induction pts as [|q pts IH]; intros j; simpl;
    [apply NoDup_nil_2|].
  destruct (Real_le (distance p q) r); [|apply IH].
  apply NoDup_cons. split; [|apply IH].
  rewrite elem_of_scan_neighbors. intros (k & _ & _ & ? & _). lia.
Qed.

(** The test of one iteration fails exactly on a permutation. *)
Lemma mismatch_false (neighbors gi : list Z) :
  bool_decide (length neighbors ≠ length gi)
  || negb (is_permutation neighbors gi) = false
  ↔ gi ≡ₚ neighbors.
Proof.
  unfold is_permutation.
  rewrite orb_false_iff, negb_false_iff, bool_decide_eq_false,
    bool_decide_eq_true.
  split.
  - intros [Hlen Hperm]. apply dec_stable in Hlen.
    rewrite Hlen, firstn_all in Hperm. by symmetry.
  - intros Hperm. pose proof (Permutation_length Hperm) as Hlen.
    split; [by intros []|]. rewrite <- Hlen, firstn_all. by symmetry.
Qed.

Lemma check_loop_spec points r graph ids correct :
  (∀ i, i ∈ ids → 0 ≤ i < Z.of_nat (length points)) →
  length graph = length points →
  ∃ b, check_loop points r graph ids correct = Some b ∧
       (b = true ↔
        correct = true ∧
        ∀ i p gi, i ∈ ids → points !! Z.to_nat i = Some p →
                  graph !! Z.to_nat i = Some gi →
                  gi ≡ₚ scan_neighbors p r 0 points).
Proof.
  intros Hids Hlen. revert correct Hids.
  induction ids as [|i ids IH]; intros correct Hids; simpl.
  - exists correct. split; [done|]. split; [|by intros []].
    intros ->. split; [done|]. by intros i p gi ?%elem_of_nil.
  - assert (Hids' : ∀ i0, i0 ∈ ids → 0 ≤ i0 < Z.of_nat (length points))
      by (intros; by apply Hids, list_elem_of_further).
    destruct correct; simpl.
    2: { destruct (IH false Hids') as (b & -> & Hb). exists b.
         split; [done|]. split; [by intros []%Hb|by intros []]. }
    assert (Hi : 0 ≤ i < Z.of_nat (length points))
      by apply Hids, list_elem_of_here.
    destruct (lookup_lt_is_Some_2 graph (Z.to_nat i)) as [gi Hgi]; [lia|].
    destruct (lookup_lt_is_Some_2 points (Z.to_nat i)) as [p Hp]; [lia|].
    rewrite Hgi, Hp. simpl.
    destruct (bool_decide _ || negb _) eqn:Htest.
    + destruct (IH false Hids') as (b & -> & Hb). exists b.
      split; [done|]. split; [by intros []%Hb|].
      intros [_ Hall].
      assert (Hperm : gi ≡ₚ scan_neighbors p r 0 points)
        by (by eapply Hall; [apply list_elem_of_here|..]).
      apply mismatch_false in Hperm. congruence.
    + apply mismatch_false in Htest.
      destruct (IH true Hids') as (b & -> & Hb). exists b.
      split; [done|]. rewrite Hb. split; intros [_ Hall]; (split; [done|]).
      * intros i0 p0 gi0 [->|Hin]%elem_of_cons Hp0 Hgi0; [|by eapply Hall].
        by simplify_eq.
      * intros i0 p0 gi0 Hin. by apply Hall, list_elem_of_further.
Qed.

(** The function returns, and it returns [true] exactly when every list
    is a permutation of the neighbors computed for its point. *)
Lemma graph_is_correct_perm points r (graph : list (list Z)) :
  length graph = length points →
  ∃ b, graph_is_correct points r graph = Some b ∧
       (b = true ↔
        ∀ i p gi, points !! i = Some p → graph !! i = Some gi →
                  gi ≡ₚ scan_neighbors p r 0 points).
Proof.
  intros Hlen. unfold graph_is_correct.
  destruct (check_loop_spec points r graph
              (seqZ 0 (Z.of_nat (length points))) true)
    as (b & Hb & Hiff); [|done|].
  { intros i Hi%elem_of_seqZ. lia. }
  exists b. split; [done|]. rewrite Hiff. split.
  - intros [_ Hall] i p gi Hp Hgi.
    apply (Hall (Z.of_nat i)); rewrite ?Nat2Z.id; [|done..].
    apply elem_of_seqZ. apply lookup_lt_Some in Hp. lia.
  - intros Hall. split; [done|]. intros i p gi _ Hp Hgi. by eapply Hall.
Qed.

(** The neighbors computed for a point are the indices of the points
    within the radius. *)
Lemma scan_neighbors_set points p r j :
  j ∈ scan_neighbors p r 0 points ↔
  ∃ q, 0 ≤ j ∧ points !! Z.to_nat j = Some q ∧
       Real_le (distance p q) r = true.
Proof.
  rewrite elem_of_scan_neighbors. split.
  - intros (k & q & Hk & -> & Hle). exists q.
    split; [lia|]. split; [|done]. by rewrite Z.add_0_l, Nat2Z.id.
  - intros (q & Hj & Hq & Hle). exists (Z.to_nat j), q.
    split; [done|]. split; [lia|done].
Qed.

Lemma graph_is_correct_exact points r (graph : list (list Z)) :
  length graph = length points →
  ∃ b, graph_is_correct points r graph = Some b ∧
       (b = true ↔ exact_neighbors points r graph).
Proof.
  intros Hlen.
  destruct (graph_is_correct_perm points r graph Hlen) as (b & Hb & Hiff).
  exists b. split; [done|]. rewrite Hiff. clear Hb Hiff.
  unfold exact_neighbors. split.
  - intros Hall i p gi Hp Hgi. pose proof (Hall i p gi Hp Hgi) as Hperm.
    split.
    + rewrite Hperm. apply NoDup_scan_neighbors.
    + intros j. by rewrite Hperm, scan_neighbors_set.
  - intros Hall i p gi Hp Hgi.
    destruct (Hall _ _ _ Hp Hgi) as [Hnodup Hmem].
    apply NoDup_Permutation; [done|apply NoDup_scan_neighbors|].
    intros j. by rewrite Hmem, scan_neighbors_set.
Qed.

(** The iterations may be taken in any order: the loop gives the same
    result on every arrangement of the indices. *)
Lemma check_loop_any_order points r graph ids ids' :
  length graph = length points →
  (∀ i, i ∈ ids → 0 ≤ i < Z.of_nat (length points)) →
  ids ≡ₚ ids' →
  check_loop points r graph ids' true = check_loop points r graph ids true.
Proof.
  intros Hlen Hids Hperm.
  destruct (check_loop_spec points r graph ids true Hids Hlen)
    as (b & -> & Hb).
  destruct (check_loop_spec points r graph ids' true) as (b' & -> & Hb');
    [|done|].
  { intros i Hi. apply Hids. by rewrite Hperm. }
  f_equal. apply eq_true_iff_eq. rewrite Hb, Hb'.
  split; intros [_ Hall]; (split; [done|]); intros i p gi Hi;
    apply Hall; by rewrite ?Hperm in *.
Qed.

(** C10: when every point of the array is at distance [0.] of itself and
    [0. <= radius] holds, the neighbors that [graph_is_correct] computes
    for point [i] include [i]; so a graph with one list per point is
    accepted only if the list of every point [i] contains [i]. *)
Theorem accepted_graph_has_self_loops points r :
  (∀ p, p ∈ points → distance p p = Real_0) →
  Real_le Real_0 r = true →
  (∀ i p, points !! i = Some p →
          Z.of_nat i ∈ scan_neighbors p r 0 points) ∧
  (∀ graph : list (list Z),
     length graph = length points →
     graph_is_correct points r graph = Some true →
     ∀ i gi, graph !! i = Some gi → Z.of_nat i ∈ gi).
Proof.
  intros Hrefl Hradius.
  assert (Hself : ∀ i p, points !! i = Some p →
                         Z.of_nat i ∈ scan_neighbors p r 0 points).
  { intros i p Hp. apply elem_of_scan_neighbors. exists i, p.
    split; [done|]. split; [lia|].
    by rewrite (Hrefl p) by (by eapply list_elem_of_lookup_2). }
  split; [done|]. intros graph Hlen Hcorrect i gi Hgi.
  destruct (graph_is_correct_perm points r graph Hlen) as (b & Hb & Hiff).
  rewrite Hcorrect in Hb. injection Hb as <-.
  destruct (lookup_lt_is_Some_2 points i) as [p Hp].
  { rewrite <- Hlen. by eapply lookup_lt_Some. }
  destruct Hiff as [Hall _]. rewrite (Hall eq_refl i p gi Hp Hgi).
  by apply Hself.
Qed.

(** *** [main] *)

Lemma length_query_all ctree points r :
  length (query_all ctree points r) = length points.
Proof. apply length_map. Qed.

(** When [fname] is set, the rest of [main] returns 0, and these are the
    lines it prints and the queries it makes. *)
Lemma main_body_return g log file :
  fname g = Some file →
  let points := read_from_file file in
  let size := Z.of_nat (length points) in
  let ctree :=
    build points (split_ratio g) (switch_size g) (min_hub_size g)
      (level_synch g) true (verbose g) in
  let graph := query_all ctree points (radius g) in
  ∃ correct,
    graph_is_correct points (radius g) graph = Some correct ∧
    main_body g log =
    Return 0
      (log
       ++ [Stdout (MsgReadPoints size file);
           Stdout (MsgConstructedTree (num_vertices ctree)
                     (num_levels ctree) size)]
       ++ (if verify_tree g
           then [Stdout (MsgTreeVerification
                           (verdict (is_correct ctree (split_ratio g))))]
           else [])
       ++ (if build_graph g
           then map PointQuery (seqZ 0 size)
                ++ [Stdout (MsgConstructedGraph size (count_edges graph))]
                ++ (if verify_graph g
                    then [Stdout (MsgGraphVerification (verdict correct))]
                    else [])
           else [])).
Proof.
  intros Hfile points size ctree graph.
  destruct (graph_is_correct_perm points (radius g) graph)
    as (correct & Hcorrect & _); [apply length_query_all|].
  exists correct. split; [done|].
  unfold main_body, graph_phase. rewrite Hfile.
  fold points. fold size. fold ctree. fold graph. rewrite Hcorrect.
  destruct (verify_tree g), (build_graph g), (verify_graph g); simpl;
    by rewrite <- ?(assoc_L (++)), ?app_nil_r.
Qed.

Lemma main_body_prepend g l log :
  main_body g (l ++ log) = prepend l (main_body g log).
Proof.
  destruct (fname g) as [file|] eqn:Hfile.
  - destruct (main_body_return g (l ++ log) file Hfile) as (b & Hb & ->).
    destruct (main_body_return g log file Hfile) as (b' & Hb' & ->).
    simpl. rewrite Hb in Hb'. injection Hb' as <-.
    by rewrite <- (assoc_L (++)).
  - unfold main_body. by rewrite Hfile.
Qed.

(** Everything the option loop writes goes to standard error. *)
Lemma option_loop_stderr fuel d g :
  Forall (λ e, is_stderr e = true) (output (option_loop fuel d g [])).
Proof.
  revert d g. induction fuel as [|fuel IH]; intros d g; simpl;
    [constructor|].
  destruct (Getopt.getopt ord optstring d) as [[r diag] d'].
  assert (Hdiag : Forall (λ e : ev, is_stderr e = true) (diagnostics diag))
    by (destruct diag; repeat constructor).
  destruct r as [c a|operands]; [|done].
  destruct (handle_option c a g) as [g'| |]; simpl.
  - rewrite <- (app_nil_r (diagnostics diag)), option_loop_prepend.
    specialize (IH d' g').
    destruct (option_loop fuel d' g' []); simpl in *;
      try apply Forall_app; done.
  - apply Forall_app. split; [done|]. by repeat constructor.
  - constructor.
Qed.

Lemma parse_arguments_events argv :
  Forall (λ e, parse_event e = true) (output (parse_arguments argv)).
Proof.
  unfold parse_arguments.
  pose proof (option_loop_stderr (S (Getopt.measure (Getopt.start argv)))
                (Getopt.start argv) initial) as Hloop.
  assert (Hstderr : ∀ l : list ev,
    Forall (λ e, is_stderr e = true) l →
    Forall (λ e, parse_event e = true) l).
  { intros l Hl. eapply Forall_impl; [done|]. by intros []. }
  destruct (option_loop _ _ _ _) as [[g ops] log|status log| |];
    simpl in *; try by (try apply Hstderr).
  destruct ops as [|file ops]; simpl.
  - rewrite !Forall_app. repeat split; try by apply Hstderr.
    all: by repeat constructor.
  - unfold parameter_lines. rewrite !Forall_app.
    split; [by apply Hstderr|].
    split; [by repeat constructor|]. by destruct (build_graph _);
      repeat constructor.
Qed.

Lemma parse_arguments_return argv g log :
  parse_arguments argv = Return g log →
  ∃ file, fname g = Some file ∧
          build_graph g = Real_lt Real_0 (radius g) ∧
          Forall (λ e, parse_event e = true) log.
Proof.
  intros Hparse. pose proof (parse_arguments_events argv) as Hev.
  rewrite Hparse in Hev.
  destruct (parse_arguments_cases argv)
    as [(g' & log' & file & Heq & ? & ?)|[(? & ? & Heq)|(? & ? & Heq)]];
    rewrite Hparse in Heq; [|done..].
  injection Heq as <- <-. by exists file.
Qed.

Lemma main_return argv g log :
  parse_arguments argv = Return g log →
  ∃ file log',
    fname g = Some file ∧
    main argv = Return 0 (log ++ log') ∧
    Forall (λ e, body_event e = true) log'.
Proof.
  intros Hparse.
  destruct (parse_arguments_return _ _ _ Hparse) as (file & Hfile & _ & _).
  destruct (main_body_return g log file Hfile) as (correct & Hcorrect & Hm).
  unfold main. rewrite Hparse, Hm. eexists file, _.
  split; [done|]. split; [done|].
  rewrite !Forall_app. split; [by repeat constructor|].
  split; [destruct (verify_tree g); by repeat constructor|].
  destruct (build_graph g); [|constructor].
  rewrite !Forall_app. split; [by apply Forall_fmap, Forall_true|].
  split; [by repeat constructor|].
  destruct (verify_graph g); by repeat constructor.
Qed.

(** C1: for a graph with one list per point, [graph_is_correct] returns,
    and it returns [true] exactly when the list of every point [i] is a
    permutation of the brute-force neighbor set of [i]: it has no
    repetition and holds exactly the indices [j] of the points within
    [radius] of point [i].  Hence a run with [-G] and a positive radius
    prints [PASSED] for the graph exactly when the graph it has built has
    these lists. *)
Theorem graph_is_correct_iff points r (graph : list (list Z)) :
  length graph = length points →
  (∃ b, graph_is_correct points r graph = Some b ∧
        (b = true ↔
         ∀ i p gi, points !! i = Some p → graph !! i = Some gi →
           NoDup gi ∧
           ∀ j, j ∈ gi ↔
                ∃ q, 0 ≤ j ∧ points !! Z.to_nat j = Some q ∧
                     Real_le (distance p q) r = true)) ∧
  (∀ argv g log file,
     parse_arguments argv = Return g log → fname g = Some file →
     build_graph g = true → verify_graph g = true →
     let points := read_from_file file in
     let ctree :=
       build points (split_ratio g) (switch_size g) (min_hub_size g)
         (level_synch g) true (verbose g) in
     Stdout (MsgGraphVerification "PASSED") ∈ output (main argv) ↔
     exact_neighbors points (radius g)
       (query_all ctree points (radius g))).
Proof.
  intros Hlen. split; [by apply graph_is_correct_exact|].
  intros argv g log file Hparse Hfile Hbuild Hverify points' ctree.
  destruct (parse_arguments_return _ _ _ Hparse) as (_ & _ & _ & Hlog).
  destruct (main_body_return g log file Hfile) as (correct & Hcorrect & Hm).
  fold points' in Hcorrect, Hm. fold ctree in Hcorrect, Hm.
  destruct (graph_is_correct_exact points' (radius g)
              (query_all ctree points' (radius g)))
    as (b & Hb & <-); [apply length_query_all|].
  rewrite Hcorrect in Hb. injection Hb as <-.
  unfold main. rewrite Hparse, Hm, Hbuild, Hverify. cbn [output].
  rewrite !elem_of_app. split.
  - intros [Hin|[Hin|[Hin|[Hin|[Hin|Hin]]]]].
    + rewrite Forall_forall in Hlog. by apply Hlog in Hin.
    + by decompose_list_elem_of.
    + by destruct (verify_tree g); decompose_list_elem_of.
    + by apply list_elem_of_fmap in Hin as (? & ? & _).
    + by decompose_list_elem_of.
    + apply list_elem_of_singleton in Hin. by destruct correct.
  - intros ->. do 5 right. apply list_elem_of_here.
Qed.

(** C7: whenever [parse_arguments] returns, [main] returns 0 and writes
    nothing more to standard error.  With [-T] the outcome of the tree
    verification, and with [-G] and a positive radius the outcome of the
    graph verification, is printed on standard output as [PASSED] or
    [FAILED]; the returned value is 0 for either outcome. *)
Theorem failed_verification_exits_0 argv g log :
  parse_arguments argv = Return g log →
  ∃ file log',
    fname g = Some file ∧
    main argv = Return 0 (log ++ log') ∧
    exit_status (main argv) = Some 0 ∧
    Forall (λ e, is_stderr e = false) log' ∧
    let points := read_from_file file in
    let ctree :=
      build points (split_ratio g) (switch_size g) (min_hub_size g)
        (level_synch g) true (verbose g) in
    let graph := query_all ctree points (radius g) in
    (verify_tree g = true →
     Stdout (MsgTreeVerification
               (verdict (is_correct ctree (split_ratio g)))) ∈ log') ∧
    (build_graph g = true → verify_graph g = true →
     ∃ correct,
       graph_is_correct points (radius g) graph = Some correct ∧
       Stdout (MsgGraphVerification (verdict correct)) ∈ log').
Proof.
  intros Hparse.
  destruct (parse_arguments_return _ _ _ Hparse) as (file & Hfile & _ & _).
  destruct (main_body_return g log file Hfile) as (correct & Hcorrect & Hm).
  unfold main. rewrite Hparse, Hm. eexists file, _.
  split; [done|]. split; [done|]. split; [done|]. split.
  - rewrite !Forall_app. split; [by repeat constructor|].
    split; [destruct (verify_tree g); by repeat constructor|].
    destruct (build_graph g); [|constructor].
    rewrite !Forall_app. split; [by apply Forall_fmap, Forall_true|].
    split; [by repeat constructor|].
    destruct (verify_graph g); by repeat constructor.
  - cbv zeta. split.
    + intros ->. rewrite !elem_of_app. right. left. apply list_elem_of_here.
    + intros -> ->. exists correct. split; [done|].
      rewrite !elem_of_app. do 4 right. apply list_elem_of_here.
Qed.

Lemma handle_option_radius c a g g' :
  handle_option c a g = Continue g' → c ≠ "r"%char → radius g' = radius g.
Proof.
  unfold handle_option. intros Hopt Hc. revert Hopt.
  repeat (case_option_char c; [try done; destruct a; by intros [= <-]|]).
  by intros [= <-].
Qed.

(** Without an option [r] the loop leaves [radius] as it is. *)
Lemma option_loop_radius fuel d g log g' operands log' :
  option_loop fuel d g log = Return (g', operands) log' →
  ¬ Getopt.returns ord optstring d "r" →
  radius g' = radius g.
Proof.
  revert d g log. induction fuel as [|fuel IH]; intros d g log; simpl;
    [done|].
  destruct (Getopt.getopt ord optstring d) as [[r diag] d'] eqn:Hget.
  destruct r as [c a|ops]; [|by intros [= <- _ _]].
  destruct (handle_option c a g) as [g1| |] eqn:Hopt; [|done..].
  intros Hloop Hnot. transitivity (radius g1).
  - eapply IH; [done|]. intros Hlater. apply Hnot.
    by eapply Getopt.returns_later.
  - eapply handle_option_radius; [done|]. intros ->. apply Hnot.
    by eapply Getopt.returns_now.
Qed.

(** C6: whenever [parse_arguments] returns, [build_graph] is the outcome
    of the test [radius > 0]; [main] prints the line on the constructed
    graph exactly when the test holds, and it issues a query for point
    [id] exactly when the test holds and [id] is the index of a point.
    When [getopt] never returns [r], the radius is the initial [0.], and
    (as [0. > 0.] is false) the graph is not built and no query is
    issued. *)
Theorem graph_phase_iff_positive_radius argv g log :
  parse_arguments argv = Return g log →
  ∃ file,
    fname g = Some file ∧
    let size := Z.of_nat (length (read_from_file file)) in
    build_graph g = Real_lt Real_0 (radius g) ∧
    ((∃ n m, Stdout (MsgConstructedGraph n m) ∈ output (main argv)) ↔
     Real_lt Real_0 (radius g) = true) ∧
    (∀ id, PointQuery id ∈ output (main argv) ↔
           Real_lt Real_0 (radius g) = true ∧ 0 ≤ id < size) ∧
    (Real_lt Real_0 Real_0 = false →
     ¬ Getopt.returns ord optstring (Getopt.start argv) "r" →
     radius g = Real_0 ∧ build_graph g = false ∧
     ∀ id, PointQuery id ∉ output (main argv)).
Proof.
  intros Hparse.
  destruct (parse_arguments_return _ _ _ Hparse)
    as (file & Hfile & Hbuild & Hlog).
  destruct (main_body_return g log file Hfile) as (correct & _ & Hm).
  exists file. split; [done|]. simpl. split; [done|].
  assert (Hq : ∀ id, PointQuery id ∈ output (main argv) ↔
    Real_lt Real_0 (radius g) = true ∧
    0 ≤ id < Z.of_nat (length (read_from_file file))).
  { intros id. unfold main. rewrite Hparse, Hm. cbn [output].
    rewrite <- Hbuild.
    rewrite !elem_of_app. split.
    - intros [Hin|[Hin|[Hin|Hin]]].
      + rewrite Forall_forall in Hlog. by apply Hlog in Hin.
      + by decompose_list_elem_of.
      + by destruct (verify_tree g); decompose_list_elem_of.
      + destruct (build_graph g); [|by decompose_list_elem_of].
        split; [done|].
        rewrite !elem_of_app in Hin. destruct Hin as [Hin|[Hin|Hin]].
        * apply list_elem_of_fmap in Hin as (i & [= ->] & Hi%elem_of_seqZ).
          lia.
        * by decompose_list_elem_of.
        * by destruct (verify_graph g); decompose_list_elem_of.
    - intros [-> Hid]. do 3 right. apply elem_of_app. left.
      apply list_elem_of_fmap. exists id. split; [done|].
      apply elem_of_seqZ. lia. }
  split; [|split; [done|]].
  - unfold main. rewrite Hparse, Hm. cbn [output]. rewrite <- Hbuild.
    split.
    + intros (n & m & Hin). rewrite !elem_of_app in Hin.
      destruct Hin as [Hin|[Hin|[Hin|Hin]]].
      * rewrite Forall_forall in Hlog. by apply Hlog in Hin.
      * by decompose_list_elem_of.
      * by destruct (verify_tree g); decompose_list_elem_of.
      * by destruct (build_graph g); [|decompose_list_elem_of].
    + intros ->. eexists _, _. rewrite !elem_of_app. do 3 right. right.
      left. apply list_elem_of_here.
  - intros Hzero Hnot.
    assert (Hr : radius g = Real_0).
    { revert Hparse. unfold parse_arguments.
      destruct (option_loop _ _ _ _) as [[g1 ops] log1|? ?| |] eqn:Hloop;
        [|done..].
      apply option_loop_radius in Hloop; [|done].
      destruct ops; [done|]. intros [= <- _]. simpl. by rewrite Hloop. }
    split; [done|]. split; [by rewrite Hbuild, Hr|].
    intros id [Hpos _]%Hq. rewrite Hr in Hpos. congruence.
Qed.

(** *** Single flags *)

Lemma after_options_prepend g operands l log :
  after_options g operands (l ++ log)
  = prepend l (after_options g operands log).
Proof.
  destruct operands; simpl; unfold usage; simpl;
    by rewrite <- !(assoc_L (++)).
Qed.

Lemma main_from_start argv :
  main argv = main_from (Getopt.start argv) initial [].
Proof. reflexivity. Qed.

Lemma main_from_prepend d g l log :
  main_from d g (l ++ log) = prepend l (main_from d g log).
Proof.
  unfold main_from, parse_from, loop. rewrite option_loop_prepend.
  destruct (option_loop _ d g log) as [[g' ops] log'|status log'| |];
    simpl; try done.
  rewrite after_options_prepend.
  destruct (after_options g' ops log'); simpl; try done.
  apply main_body_prepend.
Qed.

(** An element [-c] with a character that [getopt] does not accept: the
    call returns [?] and the loop goes on to the next element. *)
Lemma main_from_invalid c rest skipped g log :
  c ≠ "-"%char →
  (if Ascii.eqb c ":" || Ascii.eqb c ";" then None
   else Getopt.lookup_option optstring c) = None →
  main_from (Getopt.mkData "" (String "-" (String c "") :: rest) skipped)
    g log
  = main_from (Getopt.mkData "" rest skipped) g
      (log ++ [Stderr (ErrGetopt (Getopt.InvalidOption c))]).
Proof.
  intros Hdash Hunknown. unfold main_from at 1, parse_from.
  rewrite loop_unfold. unfold Getopt.getopt. simpl.
  apply Ascii.eqb_neq in Hdash. rewrite Hdash.
  unfold Getopt.take_option. rewrite Hunknown. done.
Qed.

(** The option [-e], which the option string declares with an argument
    and the loop has no branch for. *)
Lemma main_from_e a rest skipped g log :
  main_from (Getopt.mkData "" ("-e" :: a :: rest) skipped) g log
  = main_from (Getopt.mkData "" rest skipped) g log.
Proof.
  unfold main_from at 1, parse_from. rewrite loop_unfold. simpl.
  by rewrite app_nil_r.
Qed.

(** Every character outside the documented options is [e] or is not
    accepted by [getopt]. *)
Lemma undocumented_cases c :
  c ∉ documented →
  c = "e"%char ∨
  (if Ascii.eqb c ":" || Ascii.eqb c ";" then None
   else Getopt.lookup_option optstring c) = None.
Proof.
  intros Hc.
  assert (Hdec : bool_decide (c ∈ documented) || Ascii.eqb c "e"
                 || bool_decide ((if Ascii.eqb c ":" || Ascii.eqb c ";"
                                  then None
                                  else Getopt.lookup_option optstring c)
                                 = None) = true)
    by (by destruct c as [[] [] [] [] [] [] [] []]; vm_compute).
  apply orb_true_iff in Hdec as [[Hdoc|He]%orb_true_iff|Hun].
  - by apply bool_decide_eq_true in Hdoc.
  - left. by apply Ascii.eqb_eq.
  - right. by apply bool_decide_eq_true in Hun.
Qed.

(** The calls of [exit]: [usage(0)] for [-h], and [usage(1)] after the
    line on missing arguments. *)
Lemma main_exit_cases argv status log :
  main argv = Exit status log →
  (∃ g log0, status = 0 ∧ main argv = usage 0 g log0) ∨
  (∃ g log0, status = 1 ∧
             main argv = usage 1 g (log0 ++ [Stderr ErrMissingArguments])).
Proof.
  unfold main.
  destruct (parse_arguments_cases argv)
    as [(g & log0 & file & -> & Hfile & _)|[(g & log0 & ->)|(g & log0 & ->)]].
  - destruct (main_body_return g log0 file Hfile) as (? & _ & ->). done.
  - intros [= <- _]. left. by exists g, log0.
  - intros [= <- _]. right. by exists g, log0.
Qed.

(** Every run ends, with status 0 or 1: nothing in [main] is undefined
    and the bound on the option loop is never reached. *)
Lemma main_status argv :
  exit_status (main argv) = Some 0 ∨ exit_status (main argv) = Some 1.
Proof.
  unfold main.
  destruct (parse_arguments_cases argv)
    as [(g & log0 & file & -> & Hfile & _)|[(g & log0 & ->)|(g & log0 & ->)]].
  - destruct (main_body_return g log0 file Hfile) as (? & _ & ->).
    by left.
  - by left.
  - by right.
Qed.

(** C3 (as amended): a flag outside the documented options does not end
    the run.  For a character [c] that is neither documented nor [e] nor
    [-], the run of [prog -c rest...] is the run of [prog rest...] after
    the message of [getopt] on an invalid option; the run of
    [prog -e a rest...] is the run of [prog rest...]; and when the driver
    exits, it is with status 0 through the usage of [-h], or with status 1
    after the line on missing arguments, followed by the usage text. *)
Theorem undocumented_flag_is_skipped :
  (∀ prog c rest,
     c ∉ documented → c ≠ "e"%char → c ≠ "-"%char →
     main (prog :: String "-" (String c "") :: rest)
     = prepend [Stderr (ErrGetopt (Getopt.InvalidOption c))]
         (main (prog :: rest))) ∧
  (∀ prog a rest, main (prog :: "-e" :: a :: rest) = main (prog :: rest)) ∧
  (∀ argv status log,
     main argv = Exit status log →
     (∃ g log0, status = 0 ∧ main argv = usage 0 g log0) ∨
     (∃ g log0, status = 1 ∧
        main argv = usage 1 g (log0 ++ [Stderr ErrMissingArguments]))).
Proof.
  split; [|split].
  - intros prog c rest Hdoc He Hdash.
    destruct (undocumented_cases c Hdoc) as [?|Hunknown]; [done|].
    rewrite !main_from_start. unfold Getopt.start. simpl.
    rewrite main_from_invalid by done.
    by rewrite <- main_from_prepend, app_nil_r.
  - intros prog a rest. rewrite !main_from_start. apply main_from_e.
  - apply main_exit_cases.
Qed.

Lemma parse_from_start argv :
  parse_arguments argv = parse_from (Getopt.start argv) initial [].
Proof. reflexivity. Qed.

(** C4 (as amended): the values given with [-S], [-l] and [-r] are stored
    as [atof] and [atoi] convert them, whatever their range, with or
    without [-G]: the run of [prog -S s -l n -r r -G file], for a file name
    that does not start with [-], writes nothing to standard error and
    returns 0. *)
Theorem parameters_are_not_validated prog s n r file :
  (∀ t, file ≠ String "-" t) →
  let argv := [prog; "-S"; s; "-l"; n; "-r"; r; "-G"; file] in
  ∃ g log,
    parse_arguments argv = Return g log ∧
    split_ratio g = atof s ∧ min_hub_size g = Libc.atoi n ∧
    radius g = atof r ∧ verify_graph g = true ∧ fname g = Some file ∧
    exit_status (main argv) = Some 0 ∧
    Forall (λ e, is_stderr e = false) (output (main argv)).
Proof.
  intros Hfile argv.
  assert (Hparse : ∃ g,
    parse_arguments argv = Return g (parameter_lines file g) ∧
    split_ratio g = atof s ∧ min_hub_size g = Libc.atoi n ∧
    radius g = atof r ∧ verify_graph g = true ∧ fname g = Some file).
  { rewrite parse_from_start. unfold parse_from, argv, Getopt.start.
    do 4 (rewrite loop_unfold; simpl).
    rewrite loop_unfold. unfold Getopt.getopt. simpl Getopt.nextchar.
    simpl Getopt.remaining. simpl Getopt.passed_over.
    rewrite GetoptFacts.scan_non_option by done.
    destruct ord; simpl; by eexists. }
  destruct Hparse as (g & Hparse & Hfields).
  exists g, (parameter_lines file g). split; [done|].
  destruct Hfields as (? & ? & ? & ? & ?). do 5 (split; [done|]).
  destruct (main_return _ _ _ Hparse) as (? & log' & _ & -> & Hbody).
  split; [done|]. cbn [output]. apply Forall_app. split.
  - unfold parameter_lines. apply Forall_app.
    split; [by repeat constructor|].
    destruct (build_graph g); by repeat constructor.
  - eapply Forall_impl; [done|]. by intros [].
Qed.

(** *** The option [-o] *)

Lemma forget_fields g g' :
  forget g = forget g' →
  g' = set_tree_fname (tree_fname g') g.
Proof. destruct g, g'. unfold forget. simpl. by intros [= -> -> -> -> -> -> -> -> -> -> ->]. Qed.

Lemma handle_option_forget c a g x :
  match handle_option c a g, handle_option c a (set_tree_fname x g) with
  | Continue g1, Continue g1' => forget g1 = forget g1'
  | Usage0, Usage0 | NullOptarg, NullOptarg => True
  | _, _ => False
  end.
Proof.
  unfold handle_option.
  repeat (case_option_char c; [by destruct a|]). done.
Qed.

Lemma option_loop_forget fuel d g x log :
  match option_loop fuel d g log,
        option_loop fuel d (set_tree_fname x g) log with
  | Return (g1, ops) l, Return (g1', ops') l' =>
      forget g1 = forget g1' ∧ ops = ops' ∧ l = l'
  | Exit status l, Exit status' l' => status = status' ∧ l = l'
  | Undefined, Undefined | OutOfFuel, OutOfFuel => True
  | _, _ => False
  end.
Proof.
  revert d g x log. induction fuel as [|fuel IH]; intros d g x log; simpl;
    [done|].
  destruct (Getopt.getopt ord optstring d) as [[r diag] d'].
  destruct r as [c a|ops]; [|done].
  pose proof (handle_option_forget c a g x) as Hopt.
  destruct (handle_option c a g) as [g1| |],
    (handle_option c a (set_tree_fname x g)) as [g1'| |]; try done.
  rewrite (forget_fields _ _ Hopt). apply IH.
Qed.

Lemma main_body_forget g x log :
  main_body (set_tree_fname x g) log = main_body g log.
Proof. reflexivity. Qed.

Lemma main_from_forget d g x log :
  main_from d (set_tree_fname x g) log = main_from d g log.
Proof.
  unfold main_from, parse_from, loop.
  pose proof (option_loop_forget (S (Getopt.measure d)) d g x log) as Hloop.
  destruct (option_loop _ d g log) as [[g1 ops] l|status l| |],
    (option_loop _ d (set_tree_fname x g) log) as [[g1' ops'] l'|? l'| |];
    try done.
  - destruct Hloop as (Hg & <- & <-). rewrite (forget_fields _ _ Hg).
    by destruct ops.
  - by destruct Hloop as [<- <-].
Qed.

Lemma main_from_o f rest skipped g log :
  main_from (Getopt.mkData "" ("-o" :: f :: rest) skipped) g log
  = main_from (Getopt.mkData "" rest skipped) g log.
Proof.
  unfold main_from at 1, parse_from. rewrite loop_unfold. simpl.
  rewrite app_nil_r. apply main_from_forget.
Qed.

(** C5 (as amended): in the shared-memory driver no run writes a file,
    and the run of [prog -o f rest...] is the run of [prog rest...]: the
    name given with [-o] is only stored.  When the graph phase is enabled,
    [main] returns 0 after printing the numbers of vertices and of edges of
    the graph it has built in memory.  The lines [src dst] are written by
    the distributed driver: when every rank holds one row per point, the
    file [dtree.graph.txt] holds one line per edge of a list made of the
    computed edges, each under its global source id. *)
Theorem output_name_is_only_stored :
  (∀ argv e, e ∈ output (main argv) → is_file_write e = false) ∧
  (∀ prog f rest, main (prog :: "-o" :: f :: rest) = main (prog :: rest)) ∧
  (∀ argv g log,
     parse_arguments argv = Return g log → build_graph g = true →
     ∃ file,
       fname g = Some file ∧ exit_status (main argv) = Some 0 ∧
       let points := read_from_file file in
       let ctree :=
         build points (split_ratio g) (switch_size g) (min_hub_size g)
           (level_synch g) true (verbose g) in
       Stdout (MsgConstructedGraph (Z.of_nat (length points))
                 (count_edges (query_all ctree points (radius g))))
       ∈ output (main argv)) ∧
  (∀ ranks,
     Forall (λ r, MainMpi.mysize r
                  = Z.of_nat (length (MainMpi.mygraph r))) ranks →
     ∃ edges,
       MainMpi.graph_file ranks
       = Some ("dtree.graph.txt", MainMpi.edge_lines edges) ∧
       ∀ e, e ∈ edges ↔ MainMpi.computed_edge ranks e).
Proof.
  split; [|split; [|split]].
  - intros argv e. pose proof (parse_arguments_events argv) as Hparse.
    unfold main.
    destruct (parse_arguments argv) as [g log|status log| |] eqn:Heq;
      simpl in Hparse; try by intros ?%elem_of_nil.
    + destruct (main_return _ _ _ Heq) as (file & log' & _ & Hm & Hbody).
      unfold main in Hm. rewrite Heq in Hm. rewrite Hm. simpl.
      rewrite Forall_forall in Hparse. rewrite Forall_forall in Hbody.
      intros [Hin|Hin]%elem_of_app.
      * apply Hparse in Hin. by destruct e as [|[]| |].
      * apply Hbody in Hin. by destruct e.
    + simpl. rewrite Forall_forall in Hparse. intros Hin.
      apply Hparse in Hin. by destruct e as [|[]| |].
  - intros prog f rest. rewrite !main_from_start. apply main_from_o.
  - intros argv g log Hparse Hbuild.
    destruct (parse_arguments_return _ _ _ Hparse) as (file & Hfile & _).
    destruct (main_body_return g log file Hfile) as (correct & _ & Hm).
    exists file. split; [done|]. unfold main. rewrite Hparse, Hm, Hbuild.
    split; [done|]. cbn [output]. rewrite !elem_of_app. do 3 right.
    right. left. apply list_elem_of_here.
  - apply MainMpiFacts.graph_file_complete.
Qed.

End Facts.

(** *** Runs in the example environment *)

(** A run against C3 as stated: [x] is not a documented option, and the
    run of [prog -x pts] goes on after the message of [getopt] and returns
    0. *)
Lemma undocumented_flag_run :
  ("x"%char ∉ documented) ∧
  main (H := Line.sound) ["prog"; "-x"; "pts"]
  = Return 0
      [Stderr (ErrGetopt (Getopt.InvalidOption "x"));
       Stdout (MsgCmd 1);
       Stdout (MsgPointParameters "pts");
       Stdout (@MsgCtreeParameters Line.sound 500 0 10 true false false);
       Stdout (MsgReadPoints 3 "pts");
       Stdout (MsgConstructedTree 3 1 3)].
Proof.
  split; [|reflexivity]. unfold documented. intros Hx.
  by decompose_list_elem_of.
Qed.

(** A run against C4 as stated: a split ratio of 2, a minimum hub size of
    0 and a radius of -1 with [-G] are accepted: the run writes nothing to
    standard error, builds the tree with these values and returns 0. *)
Lemma out_of_range_run :
  main (H := Line.sound)
    ["prog"; "-S"; "2"; "-l"; "0"; "-r"; "-1"; "-G"; "pts"]
  = Return 0
      [Stdout (MsgCmd 1);
       Stdout (MsgPointParameters "pts");
       Stdout (@MsgCtreeParameters Line.sound 2000 0 0 true false false);
       Stdout (MsgReadPoints 3 "pts");
       Stdout (MsgConstructedTree 3 1 3)].
Proof. reflexivity. Qed.

(** A run against C5 as stated: with a radius of 1 and [-o out.txt] the
    run builds a graph of five edges and returns 0; it writes no file. *)
Lemma graph_is_not_written :
  main (H := Line.sound) ["prog"; "-r"; "1"; "-o"; "out.txt"; "pts"]
  = Return 0
      [Stdout (MsgCmd 1);
       Stdout (MsgPointParameters "pts");
       Stdout (@MsgCtreeParameters Line.sound 500 0 10 true false false);
       Stdout (@MsgGraphParameters Line.sound 1000 false);
       Stdout (MsgReadPoints 3 "pts");
       Stdout (MsgConstructedTree 3 1 3);
       PointQuery 0; PointQuery 1; PointQuery 2;
       Stdout (MsgConstructedGraph 3 5)].
Proof. reflexivity. Qed.

(** The theorems at runs and inputs of the example environment. *)

Lemma graph_is_correct_iff_witness :
  ∃ b, graph_is_correct (H := Line.sound) Line.three_points 1000
         [[1; 0]; [0; 1]; [2]] = Some b ∧
       (b = true ↔
        ∀ i p gi, Line.three_points !! i = Some p →
                  [[1; 0]; [0; 1]; [2]] !! i = Some gi →
          NoDup gi ∧
          ∀ j, j ∈ gi ↔
               ∃ q, 0 ≤ j ∧ Line.three_points !! Z.to_nat j = Some q ∧
                    (Line.dist p q <=? 1000) = true).
Proof.
  exact (proj1 (graph_is_correct_iff (H := Line.sound) Line.three_points
                  1000 [[1; 0]; [0; 1]; [2]] eq_refl)).
Defined.

Lemma accepted_graph_has_self_loops_witness :
  (∀ i p, Line.three_points !! i = Some p →
          Z.of_nat i
          ∈ scan_neighbors (H := Line.sound) p 1000 0 Line.three_points) ∧
  (∀ graph : list (list Z),
     length graph = length Line.three_points →
     graph_is_correct (H := Line.sound) Line.three_points 1000 graph
     = Some true →
     ∀ i gi, graph !! i = Some gi → Z.of_nat i ∈ gi).
Proof.
  apply (accepted_graph_has_self_loops (H := Line.sound)
           Line.three_points 1000).
  - intros p _. simpl. unfold Line.dist. by rewrite Z.sub_diag.
  - reflexivity.
Defined.

Lemma parameters_are_not_validated_witness :
  ∃ g log,
    parse_arguments (H := Line.sound)
      ["prog"; "-S"; "2"; "-l"; "0"; "-r"; "-1"; "-G"; "pts"]
    = Return g log ∧
    split_ratio g = 2000 ∧ min_hub_size g = 0 ∧ radius g = -1000 ∧
    verify_graph g = true ∧ fname g = Some "pts".
Proof.
  destruct (parameters_are_not_validated (H := Line.sound)
              "prog" "2" "0" "-1" "pts")
    as (g & log & Hparse & HS & Hl & Hr & HG & Hfile & _); [done|].
  by exists g, log.
Defined.

Lemma graph_phase_iff_positive_radius_witness :
  ∃ g log,
    parse_arguments (H := Line.sound) ["prog"; "-T"; "pts"] = Return g log ∧
    radius g = 0 ∧ build_graph g = false ∧
    ∀ id, PointQuery id
          ∉ output (main (H := Line.sound) ["prog"; "-T"; "pts"]).
Proof.
  eexists _, _. split; [reflexivity|].
  destruct (graph_phase_iff_positive_radius (H := Line.sound)
              ["prog"; "-T"; "pts"] _ _ eq_refl)
    as (file & _ & _ & _ & _ & Hdefault).
  apply Hdefault; [reflexivity|].
  eapply GetoptFacts.not_returns_step; [reflexivity|done|].
  eapply GetoptFacts.not_returns_end. reflexivity.
Defined.

Lemma failed_verification_exits_0_witness :
  ∃ log log',
    main (H := Line.faulty) ["prog"; "-r"; "1"; "-T"; "-G"; "pts"]
    = Return 0 (log ++ log') ∧
    Stdout (MsgTreeVerification "FAILED") ∈ log' ∧
    Stdout (MsgGraphVerification "FAILED") ∈ log'.
Proof.
  destruct (failed_verification_exits_0 (H := Line.faulty)
              ["prog"; "-r"; "1"; "-T"; "-G"; "pts"] _ _ eq_refl)
    as (file & log' & _ & Hmain & _ & _ & Htree & Hgraph).
  eexists _, log'. split; [exact Hmain|]. split; [exact (Htree eq_refl)|].
  destruct (Hgraph eq_refl eq_refl) as (correct & Hcorrect & Hin).
  vm_compute in Hcorrect. injection Hcorrect as <-. exact Hin.
Defined.

End MainFacts.

(** ** More on the insert tree *)

Module ItreeExtra.

Import Itree ItreeShape ItreeFacts.

Section Facts.

Context {Item : Type}.

Implicit Types (t : InsertTree Item) (item : Item) (parent : Index).

(** *** When [add_vertex] is defined *)

(** X1: on a tree whose tables have one entry per vertex, [add_vertex] is
    defined exactly when the parent is negative or the id of an existing
    vertex: a parent id at or beyond the number of vertices reads
    [levels] out of range.  A defined call returns the former number of
    vertices, adds one vertex and leaves the tables with one entry per
    vertex. *)
Theorem add_vertex_defined_exactly item parent t :
  aligned t →
  (is_Some (add_vertex item parent t) ↔ valid_parent t parent) ∧
  ∀ v t', add_vertex item parent t = Some (v, t') →
          v = num_vertices t ∧ num_vertices t' = v + 1 ∧ aligned t'.
Proof.
  intros Hal. split; [by apply add_vertex_defined_iff|].
  intros v t' Hadd. pose proof (add_vertex_aligned _ _ _ _ _ Hal Hadd).
  apply add_vertex_inv in Hadd as (-> & Hv & _).
  split; [done|]. split; [|done].
  unfold num_vertices. rewrite Hv, length_app. simpl. lia.
Qed.

(** *** [get_children] after [add_vertex] *)


(** *** What a sequence of calls keeps *)

Lemma add_vertex_prefix item parent t v t' :
  add_vertex item parent t = Some (v, t') →
  vertices t `prefix_of` vertices t' ∧
  levels t `prefix_of` levels t' ∧
  parents t `prefix_of` parents t' ∧
  ∀ p cs, children t !! p = Some cs →
          ∃ cs', children t' !! p = Some cs' ∧ cs `prefix_of` cs'.
Proof.
  intros (-> & Hv & Hp & Hcase)%add_vertex_inv.
  split; [rewrite Hv; by apply prefix_app_r|].
  split; [destruct Hcase as [(_ & -> & _)|(_ & lp & _ & -> & _)];
          by apply prefix_app_r|].
  split; [rewrite Hp; by apply prefix_app_r|].
  intros p cs Hcs.
  destruct Hcase as [(_ & _ & -> & _)|(_ & lp & _ & _ & -> & _)].
  - exists cs. split; [|done]. by apply lookup_app_l_Some.
  - unfold push_child. destruct (decide (p = Z.to_nat parent)) as [->|Hne].
    + exists (cs ++ [num_vertices t]). rewrite list_lookup_alter_eq.
      rewrite (lookup_app_l_Some _ _ _ _ Hcs). split; [done|].
      by apply prefix_app_r.
    + exists cs. rewrite list_lookup_alter_ne by done.
      split; [|done]. by apply lookup_app_l_Some.
Qed.

(** X3: calls of [add_vertex] only append.  After any sequence of them
    the tables of vertices, levels and parents start with what they held
    before, and the children list of every vertex starts with its former
    children: ids, items, levels and parents already given never
    change. *)
Theorem add_vertex_only_appends ops t t' :
  Forall (λ o, is_add o = true) ops → run ops t = Some t' →
  vertices t `prefix_of` vertices t' ∧
  levels t `prefix_of` levels t' ∧
  parents t `prefix_of` parents t' ∧
  ∀ p cs, children t !! p = Some cs →
          ∃ cs', children t' !! p = Some cs' ∧ cs `prefix_of` cs'.
Proof.
  intros Hops. revert t. induction Hops as [|o ops Ho _ IH]; intros t; simpl.
  - intros [= <-]. repeat split; try done. intros p cs ?. by exists cs.
  - destruct o as [item parent|]; [|done]. simpl.
    destruct (add_vertex item parent t) as [[v t1]|] eqn:Hadd; [|done].
    simpl. intros Hrun.
    destruct (add_vertex_prefix _ _ _ _ _ Hadd) as (Hv & Hl & Hp & Hc).
    destruct (IH _ Hrun) as (Hv' & Hl' & Hp' & Hc').
    split; [by etrans|]. split; [by etrans|]. split; [by etrans|].
    intros p cs Hcs. destruct (Hc p cs Hcs) as (cs1 & Hcs1 & Hpre).
    destruct (Hc' p cs1 Hcs1) as (cs2 & Hcs2 & Hpre').
    exists cs2. split; [done|by etrans].
Qed.

(** *** Invariants of the tables *)

(** Where a child of the tree after [add_vertex] comes from: it was a
    child of the same vertex before, or it is the new vertex under the
    parent given. *)
Lemma add_vertex_child item parent t v t' p cs c :
  add_vertex item parent t = Some (v, t') →
  children t' !! p = Some cs → c ∈ cs →
  (∃ cs0, children t !! p = Some cs0 ∧ c ∈ cs0) ∨
  (c = v ∧ 0 ≤ parent ∧ p = Z.to_nat parent).
Proof.
  intros (-> & _ & _ & Hcase)%add_vertex_inv Hp Hc.
  assert (Hold : ∀ cs0, (children t ++ [[]]) !! p = Some cs0 → c ∈ cs0 →
                        ∃ cs0, children t !! p = Some cs0 ∧ c ∈ cs0).
  { intros cs0 [Hcs0|[_ Hcs0]]%lookup_app_Some Hin; [by exists cs0|].
    apply list_lookup_singleton_Some in Hcs0 as [_ <-].
    by apply elem_of_nil in Hin. }
  destruct Hcase as [(_ & _ & Hch & _)|(Hpos & lp & _ & _ & Hch & _)];
    rewrite Hch in Hp; [left; by eapply Hold|].
  unfold push_child in Hp.
  destruct (decide (p = Z.to_nat parent)) as [->|Hne].
  - rewrite list_lookup_alter_eq in Hp.
    destruct ((children t ++ [[]]) !! Z.to_nat parent) as [cs0|] eqn:Hcs0;
      [|done].
    simpl in Hp. injection Hp as <-.
    apply elem_of_app in Hc as [Hc|Hc]; [left; by eapply Hold|].
    apply list_elem_of_singleton in Hc. by right.
  - rewrite list_lookup_alter_ne in Hp by done. left. by eapply Hold.
Qed.

Lemma add_vertex_children_deeper item parent t v t' :
  aligned t → children_deeper t →
  add_vertex item parent t = Some (v, t') → children_deeper t'.
Proof.
  intros [Hl Hc] Hinv Hadd p cs c Hp Hin.
  destruct (add_vertex_prefix _ _ _ _ _ Hadd) as (_ & [ls Hls] & _).
  pose proof (add_vertex_inv _ _ _ _ _ Hadd) as (-> & _ & _ & Hcase).
  destruct (add_vertex_child _ _ _ _ _ _ _ _ Hadd Hp Hin)
    as [(cs0 & Hcs0 & Hin0)|(-> & Hpos & ->)].
  - destruct (Hinv p cs0 c Hcs0 Hin0) as (Hlt & lp & Hlp & Hlc).
    split; [done|]. exists lp. rewrite Hls.
    split; by apply lookup_app_l_Some.
  - destruct Hcase as [[? _]|(_ & lp & Hlp & Hl' & _)]; [lia|].
    pose proof (lookup_lt_Some _ _ _ Hlp). unfold num_vertices.
    split; [lia|]. exists lp. rewrite Hl'.
    split; [by apply lookup_app_l_Some|].
    rewrite Nat2Z.id, <- Hl, lookup_app_r by lia.
    by rewrite Nat.sub_diag.
Qed.

Lemma add_vertex_levels_bounded item parent t v t' :
  levels_bounded t →
  add_vertex item parent t = Some (v, t') → levels_bounded t'.
Proof.
  intros Hinv (_ & _ & _ & Hcase)%add_vertex_inv i l.
  destruct Hcase as [(_ & -> & _)|(_ & lp & Hlp & -> & _)];
    intros [Hi|[Hlen Hi]]%lookup_app_Some; try by apply Hinv.
  - apply list_lookup_singleton_Some in Hi as [_ <-]. lia.
  - apply list_lookup_singleton_Some in Hi as [_ <-].
    pose proof (lookup_lt_Some _ _ _ Hlp).
    destruct (Hinv _ _ Hlp). lia.
Qed.

Lemma concat_push_child v i (l : list (list Z)) :
  (i < length l)%nat →
  concat (alter (λ c, c ++ [v]) i l) ≡ₚ v :: concat l.
Proof.
  unfold alter. revert i.
  induction l as [|cs l IH]; intros [|i] Hi; simpl in *; try lia.
  - rewrite <- (assoc_L (++)). simpl. by rewrite <- Permutation_middle.
  - rewrite IH by lia. by rewrite <- Permutation_middle.
Qed.

Lemma elem_of_concat (x : Z) (ls : list (list Z)) :
  x ∈ concat ls ↔ ∃ l, x ∈ l ∧ l ∈ ls.
Proof.
  induction ls as [|l0 ls IH]; simpl.
  - split; [by intros ?%elem_of_nil|by intros (? & _ & ?%elem_of_nil)].
  - rewrite elem_of_app, IH. split.
    + intros [?|(l & ? & ?)]; [exists l0|exists l];
        (split; [done|]); [apply list_elem_of_here|
                           by apply list_elem_of_further].
    + intros (l & Hx & [->|?]%elem_of_cons); [by left|right; by exists l].
Qed.

Lemma add_vertex_children_NoDup item parent t v t' :
  children_in_range t → NoDup (concat (children t)) →
  add_vertex item parent t = Some (v, t') → NoDup (concat (children t')).
Proof.
  intros Hrange Hnodup Hadd. unfold add_vertex in Hadd.
  assert (Hnew : v = num_vertices t → v ∉ concat (children t)).
  { intros -> (cs & Hin & Hcs)%elem_of_concat.
    apply list_elem_of_lookup in Hcs as [p Hp].
    specialize (Hrange p cs _ Hp Hin). lia. }
  assert (Hnil : concat (children t ++ [[]]) = concat (children t)).
  { by rewrite concat_app, app_nil_r. }
  destruct (decide (0 ≤ parent)).
  - destruct (levels t !! Z.to_nat parent); [|done].
    destruct ((children t ++ [[]]) !! Z.to_nat parent) as [cs0|] eqn:Hcs0;
      [|done].
    simpl in Hadd. injection Hadd as <- <-. simpl. unfold push_child.
    rewrite concat_push_child by (by eapply lookup_lt_Some).
    rewrite Hnil. apply NoDup_cons. split; [by apply Hnew|done].
  - injection Hadd as <- <-. simpl. by rewrite Hnil.
Qed.

(** The invariants hold after every sequence of defined calls on a tree
    that was just constructed or cleared. *)
Lemma run_shape ops t t' :
  tree_wf t → children_deeper t → levels_bounded t →
  NoDup (concat (children t)) →
  run ops t = Some t' →
  tree_wf t' ∧ children_deeper t' ∧ levels_bounded t' ∧
  NoDup (concat (children t')).
Proof.
  revert t. induction ops as [|o ops IH]; intros t Hwf Hdeep Hbound Hnodup;
    simpl.
  - by intros [= <-].
  - destruct o as [item parent|]; simpl.
    + destruct (add_vertex item parent t) as [[v t1]|] eqn:Hadd; [|done].
      simpl. apply IH.
      * by eapply add_vertex_wf.
      * eapply add_vertex_children_deeper; [apply Hwf|done..].
      * by eapply add_vertex_levels_bounded.
      * eapply add_vertex_children_NoDup; [apply Hwf|done..].
    + apply IH.
      * apply clear_wf.
      * by intros p cs c ?.
      * by intros v l ?.
      * constructor.
Qed.

Lemma blank_shape t :
  blank t →
  children_deeper t ∧ levels_bounded t ∧ NoDup (concat (children t)).
Proof.
  intros (_ & Hl & Hc & _). split; [|split].
  - intros p cs c Hp. by rewrite Hc in Hp.
  - intros v l Hv. by rewrite Hl in Hv.
  - rewrite Hc. constructor.
Qed.

(** X4: after a sequence of defined calls on a tree that was just
    constructed or cleared, every vertex listed among the children of a
    vertex [p] has an id larger than [p] (and below the number of
    vertices) and a level one more than the level of [p]. *)
Theorem children_are_later_and_deeper t0 ops t :
  blank t0 → run ops t0 = Some t →
  ∀ p cs c,
    children t !! p = Some cs → c ∈ cs →
    Z.of_nat p < c < num_vertices t ∧
    ∃ lp, levels t !! p = Some lp ∧ levels t !! Z.to_nat c = Some (lp + 1).
Proof.
  intros Hblank Hrun p cs c Hp Hin.
  destruct (blank_shape _ Hblank) as (Hdeep & Hbound & Hnodup).
  destruct (run_shape _ _ _ (blank_wf _ Hblank) Hdeep Hbound Hnodup Hrun)
    as ([_ Hrange] & Hdeep' & _).
  destruct (Hdeep' p cs c Hp Hin) as [Hlt Hlev].
  specialize (Hrange p cs c Hp Hin). split; [lia|done].
Qed.

(** X5: after such a sequence no vertex is listed twice among the
    children, neither in one list nor in the lists of two vertices: a
    vertex is the child of at most one vertex. *)
Theorem child_of_at_most_one_vertex t0 ops t :
  blank t0 → run ops t0 = Some t →
  NoDup (concat (children t)) ∧
  ∀ p q cs cs' c,
    children t !! p = Some cs → children t !! q = Some cs' →
    c ∈ cs → c ∈ cs' → p = q.
Proof.
  intros Hblank Hrun.
  destruct (blank_shape _ Hblank) as (Hdeep & Hbound & Hnodup).
  destruct (run_shape _ _ _ (blank_wf _ Hblank) Hdeep Hbound Hnodup Hrun)
    as (_ & _ & _ & Hnodup').
  split; [done|]. clear -Hnodup'. revert Hnodup'.
  generalize (children t). intros l. induction l as [|cs0 l IH]; simpl.
  - by intros _ p q cs cs' c ?.
  - intros (Hcs0 & Hdisj & Hl)%NoDup_app p q cs cs' c Hp Hq Hc Hc'.
    destruct p as [|p], q as [|q]; simpl in *; simplify_eq.
    + done.
    + destruct (Hdisj c Hc). apply elem_of_concat. exists cs'.
      split; [done|]. by eapply list_elem_of_lookup_2.
    + destruct (Hdisj c Hc'). apply elem_of_concat. exists cs.
      split; [done|]. by eapply list_elem_of_lookup_2.
    + f_equal. by eapply IH.
Qed.

Lemma max_level_lower (ls : list Z) : -1 ≤ max_level ls.
Proof. unfold max_level. induction ls as [|l ls IH]; simpl; lia. Qed.

Lemma max_level_bounded (ls : list Z) :
  (∀ v l, ls !! v = Some l → 0 ≤ l ≤ Z.of_nat v) →
  max_level ls ≤ Z.of_nat (length ls) - 1.
Proof.
  intros Hbound. destruct (decide (ls = [])) as [->|Hne]; [done|].
  destruct (list_elem_of_lookup_1 ls (max_level ls)) as [v Hv].
  { apply max_level_elem; [done|]. intros l [i Hi]%list_elem_of_lookup_1.
    by destruct (Hbound _ _ Hi). }
  pose proof (lookup_lt_Some _ _ _ Hv). destruct (Hbound _ _ Hv). lia.
Qed.

(** X6: after such a sequence the level of a vertex is at least 0 and at
    most its id, and [num_levels()] is at most [num_vertices()]. *)
Theorem levels_at_most_vertices t0 ops t :
  blank t0 → run ops t0 = Some t →
  (∀ v l, levels t !! v = Some l → 0 ≤ l ≤ Z.of_nat v) ∧
  0 ≤ num_levels t ≤ num_vertices t.
Proof.
  intros Hblank Hrun.
  destruct (blank_shape _ Hblank) as (Hdeep & Hbound & Hnodup).
  destruct (run_shape _ _ _ (blank_wf _ Hblank) Hdeep Hbound Hnodup Hrun)
    as ([[Hl _] _] & _ & Hbound' & _).
  destruct (run_inv _ _ _ (blank_wf _ Hblank) (blank_levels_inv _ Hblank)
              Hrun) as [_ [_ Hn]].
  split; [done|]. unfold num_levels, num_vertices. rewrite Hn, <- Hl.
  pose proof (max_level_bounded _ Hbound').
  pose proof (max_level_lower (levels t)). lia.
Qed.

Lemma add_vertex_parents_agree item parent t v t' :
  tree_wf t → parents_agree t →
  add_vertex item parent t = Some (v, t') → parents_agree t'.
Proof.
  intros [[Hl Hc] Hrange] (Hlen & Hup & Hroot & Hdown) Hadd.
  destruct (add_vertex_prefix _ _ _ _ _ Hadd) as (_ & [ls Hls] & _ & Hpre).
  pose proof (add_vertex_inv _ _ _ _ _ Hadd) as (-> & Hv & Hp & Hcase).
  assert (Hnew : ∀ i p, parents t' !! i = Some p →
            parents t !! i = Some p ∨ (i = length (vertices t) ∧ p = parent)).
  { intros i p. rewrite Hp. intros [?|[? Hi]]%lookup_app_Some; [by left|].
    apply list_lookup_singleton_Some in Hi as [? <-]. right. lia. }
  split; [|split; [|split]].
  - rewrite Hv, Hp, !length_app. simpl. lia.
  - intros i p [Hi|[-> ->]]%Hnew Hpos.
    + destruct (Hup i p Hi Hpos) as (cs & Hcs & Hin).
      destruct (Hpre _ _ Hcs) as (cs' & Hcs' & [k ->]).
      exists (cs ++ k). split; [done|]. apply elem_of_app. by left.
    + destruct Hcase as [[? _]|(_ & lp & Hlp & _ & -> & _)]; [lia|].
      apply lookup_lt_Some in Hlp.
      destruct (lookup_lt_is_Some_2 (children t) (Z.to_nat parent))
        as [cs Hcs]; [lia|].
      exists (cs ++ [num_vertices t]). unfold push_child.
      rewrite list_lookup_alter_eq, lookup_app_l, Hcs by lia.
      split; [done|]. apply elem_of_app. right. apply list_elem_of_here.
  - intros i p [Hi|[-> ->]]%Hnew Hneg.
    + rewrite Hls. apply lookup_app_l_Some. by eapply Hroot.
    + destruct Hcase as [(_ & -> & _)|[? _]]; [|lia].
      rewrite <- Hl, lookup_app_r by lia. by rewrite Nat.sub_diag.
  - intros p cs c Hcs Hin. rewrite Hp.
    destruct (add_vertex_child _ _ _ _ _ _ _ _ Hadd Hcs Hin)
      as [(cs0 & Hcs0 & Hin0)|(-> & Hpos & ->)].
    + apply lookup_app_l_Some. by eapply Hdown.
    + unfold num_vertices. rewrite Nat2Z.id, <- Hlen.
      rewrite lookup_app_r by lia. rewrite Nat.sub_diag. simpl.
      f_equal. lia.
Qed.

(** X7: on a tree that was just constructed (no vertex, an empty parents
    table), after a sequence of defined [add_vertex] calls the parents
    table has one entry per vertex and agrees with the children lists:
    a vertex with parent [p >= 0] is among the children of [p], a vertex
    with a negative parent has level 0, and every child of [p] has
    parent [p]. *)
Theorem parents_and_children_agree t0 ops t :
  blank t0 → parents t0 = [] →
  Forall (λ o, is_add o = true) ops → run ops t0 = Some t →
  parents_agree t.
Proof.
  intros Hblank Hparents Hops.
  assert (Hstart : parents_agree t0).
  { destruct Hblank as (Hv & Hl & Hc & _). unfold parents_agree.
    rewrite Hparents, Hv, Hc. repeat split; by intros. }
  pose proof (blank_wf _ Hblank) as Hwf. clear Hblank Hparents.
  revert t0 Hwf Hstart.
  induction Hops as [|o ops Ho _ IH]; intros t0 Hwf Hstart; simpl.
  - by intros [= <-].
  - destruct o as [item parent|]; [|done]. simpl.
    destruct (add_vertex item parent t0) as [[v t1]|] eqn:Hadd; [|done].
    simpl. apply IH.
    + by eapply add_vertex_wf.
    + by eapply add_vertex_parents_agree.
Qed.

(** X8: what a sequence of calls gives after [clear()] does not depend on
    what the tree held before, the parents table apart: from two cleared
    trees the same calls are defined or undefined together and give the
    same vertices, children, levels and level count. *)
Theorem calls_after_clear_forget_the_past ops t t' :
  without_parents <$> run ops (clear t)
  = without_parents <$> run ops (clear t').
Proof.
  rewrite !run_after_clear. by destruct (run ops empty_tree).
Qed.

End Facts.

(** *** The theorems on the example trees *)

Lemma example_tree_run :
  run (take 4 example_ops) empty_tree = Some example_tree.
Proof. reflexivity. Qed.

Lemma example_adds :
  Forall (λ o : op nat, is_add o = true) (take 4 example_ops).
Proof. by repeat constructor. Qed.

Lemma add_vertex_defined_exactly_witness :
  (is_Some (add_vertex 12%nat 1 example_small_tree)
   ↔ valid_parent example_small_tree 1) ∧
  ∀ v t', add_vertex 12%nat 1 example_small_tree = Some (v, t') →
          v = num_vertices example_small_tree ∧
          num_vertices t' = v + 1 ∧ aligned t'.
Proof.
  exact (add_vertex_defined_exactly 12%nat 1 example_small_tree
           (proj1 example_prefix_wf)).
Defined.


Lemma add_vertex_only_appends_witness :
  vertices example_small_tree `prefix_of` vertices example_tree ∧
  levels example_small_tree `prefix_of` levels example_tree ∧
  parents example_small_tree `prefix_of` parents example_tree ∧
  ∀ p cs, children example_small_tree !! p = Some cs →
          ∃ cs', children example_tree !! p = Some cs' ∧ cs `prefix_of` cs'.
Proof.
  apply (add_vertex_only_appends [AddVertex 12%nat 1; AddVertex 13%nat 0]).
  - by repeat constructor.
  - reflexivity.
Defined.

Lemma children_are_later_and_deeper_witness :
  Z.of_nat 0 < 3 < num_vertices example_tree ∧
  ∃ lp, levels example_tree !! 0%nat = Some lp ∧
        levels example_tree !! Z.to_nat 3 = Some (lp + 1).
Proof.
  apply (children_are_later_and_deeper empty_tree (take 4 example_ops)
           example_tree blank_empty_tree example_tree_run 0%nat [1; 3] 3).
  - reflexivity.
  - apply list_elem_of_further, list_elem_of_here.
Defined.

Lemma child_of_at_most_one_vertex_witness :
  NoDup (concat (children example_tree)).
Proof.
  exact (proj1 (child_of_at_most_one_vertex empty_tree (take 4 example_ops)
                  example_tree blank_empty_tree example_tree_run)).
Defined.

Lemma levels_at_most_vertices_witness :
  0 ≤ num_levels example_tree ≤ num_vertices example_tree.
Proof.
  exact (proj2 (levels_at_most_vertices empty_tree (take 4 example_ops)
                  example_tree blank_empty_tree example_tree_run)).
Defined.

Lemma parents_and_children_agree_witness : parents_agree example_tree.
Proof.
  exact (parents_and_children_agree empty_tree (take 4 example_ops)
           example_tree blank_empty_tree eq_refl example_adds
           example_tree_run).
Defined.

End ItreeExtra.

(** ** More on the shared-memory driver *)

Module MainExtra.

Import Process Main MainFacts.

(** The branch of the chain for a character other than [k] leaves the
    field [f], which only the branch of [k] assigns, as it is. *)
Ltac option_keeps_field :=
  let c := fresh "c" in
  let a := fresh "a" in
  let Hopt := fresh "Hopt" in
  unfold handle_option; intros c a ? ? Hopt ?; revert Hopt;
  repeat (case_option_char c; [try done; destruct a; by intros [= <-]|]);
  by intros [= <-].

(** An option that some call returns is returned by the first call or by
    a later one. *)
Lemma returns_step ord optstring d c' a diag d' c :
  Getopt.getopt ord optstring d = (Getopt.GOpt c' a, diag, d') →
  Getopt.returns ord optstring d c →
  c' = c ∨ Getopt.returns ord optstring d' c.
Proof.
  intros Hget Hret.
  destruct Hret as [d c a0 diag0 d0 Hnow|d c c0 a0 diag0 d0 Hnow Hlater];
    rewrite Hget in Hnow; injection Hnow as <- <- <- <-; [by left|by right].
Qed.

Section Facts.

Context `{Env}.

Implicit Types (g : globals) (log : list ev) (d : Getopt.getopt_data).

(** *** [graph_is_correct] *)

(** X9: for a graph with one list per point, the iterations of the
    parallel loop of [graph_is_correct] can be taken in any order: on
    every arrangement of the indices [0 .. size - 1] the loop ends with
    the flag that the function returns. *)
Theorem graph_is_correct_any_schedule points r (graph : list (list Z)) ids :
  length graph = length points →
  ids ≡ₚ seqZ 0 (Z.of_nat (length points)) →
  check_loop points r graph ids true = graph_is_correct points r graph.
Proof.
  intros Hlen Hperm. unfold graph_is_correct.
  apply check_loop_any_order; [done| |done].
  intros i Hi%elem_of_seqZ. lia.
Qed.

(** X10: when the distance between two points of the array does not
    depend on their order, a graph with one list per point that
    [graph_is_correct] accepts is undirected: [j] is in the list of [i]
    exactly when [i] is in the list of [j]. *)
Theorem accepted_graph_is_undirected points r (graph : list (list Z)) :
  (∀ p q, p ∈ points → q ∈ points → distance p q = distance q p) →
  length graph = length points →
  graph_is_correct points r graph = Some true →
  ∀ i j gi gj,
    graph !! i = Some gi → graph !! j = Some gj →
    Z.of_nat j ∈ gi ↔ Z.of_nat i ∈ gj.
Proof.
  intros Hsym Hlen Hcorrect.
  destruct (graph_is_correct_exact points r graph Hlen) as (b & Hb & Hiff).
  rewrite Hcorrect in Hb. injection Hb as <-.
  destruct Hiff as [Hexact _]. specialize (Hexact eq_refl).
  assert (Hhalf : ∀ i j gi gj,
    graph !! i = Some gi → graph !! j = Some gj →
    Z.of_nat j ∈ gi → Z.of_nat i ∈ gj).
  { intros i j gi gj Hgi Hgj Hin.
    destruct (lookup_lt_is_Some_2 points i) as [p Hp].
    { rewrite <- Hlen. by eapply lookup_lt_Some. }
    destruct (lookup_lt_is_Some_2 points j) as [q Hq].
    { rewrite <- Hlen. by eapply lookup_lt_Some. }
    destruct (Hexact i p gi Hp Hgi) as [_ Hmem].
    destruct (proj1 (Hmem _) Hin) as (q' & _ & Hq' & Hle).
    rewrite Nat2Z.id, Hq in Hq'. injection Hq' as <-.
    destruct (Hexact j q gj Hq Hgj) as [_ Hmem']. apply Hmem'. exists p.
    split; [lia|]. rewrite Nat2Z.id. split; [done|].
    by rewrite Hsym by (by eapply list_elem_of_lookup_2). }
  intros i j gi gj Hgi Hgj. split; by eapply Hhalf.
Qed.

(** X11: the order of the neighbors inside a list does not matter: two
    graphs whose lists are permutations of each other get the same
    answer. *)
Theorem graph_is_correct_up_to_order points r (graph graph' : list (list Z)) :
  length graph = length points →
  Forall2 (≡ₚ) graph graph' →
  graph_is_correct points r graph' = graph_is_correct points r graph.
Proof.
  intros Hlen Hperm. pose proof (Forall2_length _ _ _ Hperm) as Hlen'.
  destruct (graph_is_correct_perm points r graph Hlen) as (b & -> & Hb).
  destruct (graph_is_correct_perm points r graph') as (b' & -> & Hb');
    [congruence|].
  f_equal. apply eq_true_iff_eq. rewrite Hb, Hb'. split.
  - intros Hall i p gi Hp Hgi.
    destruct (Forall2_lookup_l _ _ _ _ _ Hperm Hgi) as (gi' & Hgi' & Hpi).
    rewrite Hpi. by eapply Hall.
  - intros Hall i p gi' Hp Hgi'.
    destruct (Forall2_lookup_r _ _ _ _ _ Hperm Hgi') as (gi & Hgi & Hpi).
    rewrite <- Hpi. by eapply Hall.
Qed.

(** *** The verdict lines of [main] *)

(** X12: whenever [parse_arguments] returns, [main] prints a verdict on
    the tree exactly when [-T] was given, and a verdict on the graph
    exactly when [-G] was given and the radius is positive: [-G] without a
    positive radius is ignored.  The word printed is the one for the value
    that [is_correct], respectively [graph_is_correct] on the graph
    built, returns. *)
Theorem verdict_lines argv g log :
  parse_arguments argv = Return g log →
  ∃ file correct,
    fname g = Some file ∧
    let points := read_from_file file in
    let ctree :=
      build points (split_ratio g) (switch_size g) (min_hub_size g)
        (level_synch g) true (verbose g) in
    graph_is_correct points (radius g)
      (query_all ctree points (radius g)) = Some correct ∧
    (∀ w, Stdout (MsgTreeVerification w) ∈ output (main argv) ↔
          verify_tree g = true ∧
          w = verdict (is_correct ctree (split_ratio g))) ∧
    (∀ w, Stdout (MsgGraphVerification w) ∈ output (main argv) ↔
          verify_graph g = true ∧ Real_lt Real_0 (radius g) = true ∧
          w = verdict correct).
Proof.
  intros Hparse.
  destruct (parse_arguments_return _ _ _ Hparse)
    as (file & Hfile & Hbuild & Hlog).
  destruct (main_body_return g log file Hfile) as (correct & Hcorrect & Hm).
  exists file, correct. split; [done|]. cbv zeta. split; [done|].
  rewrite Forall_forall in Hlog.
  unfold main. rewrite Hparse, Hm, <- Hbuild. cbn [output]. split.
  - intros w. rewrite !elem_of_app. split.
    + intros [Hin|[Hin|[Hin|Hin]]].
      * by apply Hlog in Hin.
      * by decompose_list_elem_of.
      * destruct (verify_tree g); decompose_list_elem_of. by simplify_eq.
      * destruct (build_graph g); [|by decompose_list_elem_of].
        rewrite !elem_of_app in Hin. destruct Hin as [Hin|[Hin|Hin]].
        -- by apply list_elem_of_fmap in Hin as (? & ? & _).
        -- by decompose_list_elem_of.
        -- by destruct (verify_graph g); decompose_list_elem_of.
    + intros [-> ->]. right. right. left. apply list_elem_of_here.
  - intros w. rewrite !elem_of_app. split.
    + intros [Hin|[Hin|[Hin|Hin]]].
      * by apply Hlog in Hin.
      * by decompose_list_elem_of.
      * by destruct (verify_tree g); decompose_list_elem_of.
      * destruct (build_graph g); [|by decompose_list_elem_of].
        rewrite !elem_of_app in Hin. destruct Hin as [Hin|[Hin|Hin]].
        -- by apply list_elem_of_fmap in Hin as (? & ? & _).
        -- by decompose_list_elem_of.
        -- destruct (verify_graph g); decompose_list_elem_of.
           by simplify_eq.
    + intros (-> & -> & ->). do 3 right. rewrite !elem_of_app.
      do 2 right. apply list_elem_of_here.
Qed.

(** *** The options *)

Lemma handle_option_usage c a g :
  handle_option c a g = Usage0 ↔ c = "h"%char.
Proof.
  unfold handle_option. split.
  - repeat (case_option_char c; [try done; by destruct a|]). done.
  - by intros ->.
Qed.

(** The loop ends in [usage(0)] exactly when some call of [getopt]
    returns [h]. *)
Lemma option_loop_usage fuel d g log :
  (Getopt.measure d < fuel)%nat →
  (∃ status log', option_loop fuel d g log = Exit status log') ↔
  Getopt.returns ord optstring d "h".
Proof.
  revert d g log. induction fuel as [|fuel IH]; intros d g log Hfuel;
    [lia|].
  simpl. destruct (Getopt.getopt ord optstring d) as [[r diag] d'] eqn:Hget.
  destruct r as [c a|operands].
  - pose proof (GetoptFacts.getopt_measure _ _ _ _ _ _ _ Hget).
    destruct (handle_option c a g) as [g'| |] eqn:Hopt.
    + rewrite IH by lia. split.
      * intros Hlater. by eapply Getopt.returns_later.
      * intros Hret.
        destruct (returns_step _ _ _ _ _ _ _ _ Hget Hret) as [->|?]; [|done].
        by rewrite (proj2 (handle_option_usage _ _ _)) in Hopt.
    + apply handle_option_usage in Hopt as ->. split.
      * intros _. by eapply Getopt.returns_now.
      * intros _. by eexists _, _.
    + apply handle_option_null in Hopt as (-> & Hc & Hlook).
      apply GetoptFacts.getopt_optarg in Hget as [[_ [?|?]]|[[? ?] _]];
        congruence.
  - split; [by intros (? & ? & ?)|].
    intros Hret. by destruct (GetoptFacts.not_returns_end _ _ _ _ _ _ "h"%char
                                Hget).
Qed.

(** X13: the driver exits with status 0 exactly when some call of
    [getopt] returns [h]; and whenever it exits, with status 0 or 1,
    everything written so far went to standard error: no line was printed
    on standard output, no point was read and no query made. *)
Theorem help_exits_0 argv :
  (Getopt.returns ord optstring (Getopt.start argv) "h" ↔
   ∃ log, main argv = Exit 0 log) ∧
  (∀ status log, main argv = Exit status log →
                 Forall (λ e, is_stderr e = true) log).
Proof.
  pose proof (option_loop_usage (S (Getopt.measure (Getopt.start argv)))
                (Getopt.start argv) initial [] ltac:(lia)) as Hhelp.
  pose proof (option_loop_ends (S (Getopt.measure (Getopt.start argv)))
                (Getopt.start argv) initial [] ltac:(lia)) as Hends.
  pose proof (option_loop_stderr (S (Getopt.measure (Getopt.start argv)))
                (Getopt.start argv) initial) as Hstderr.
  unfold main, parse_arguments.
  destruct (option_loop _ _ _ _) as [[g ops] l|status l| |] eqn:Hloop.
  - assert (Hnot : ¬ Getopt.returns ord optstring (Getopt.start argv) "h").
    { rewrite <- Hhelp. by intros (? & ? & ?). }
    destruct ops as [|file ops]; simpl.
    + split; [split; [done|by intros (? & ?)]|].
      intros ? ? [= <- <-]. simpl in Hstderr.
      rewrite !Forall_app. by repeat constructor.
    + match goal with |- context [main_body ?g' ?l'] =>
        destruct (main_body_return g' l' file eq_refl) as (? & _ & ->) end.
      split; [split; [done|by intros (? & ?)]|done].
  - destruct Hends as [(? & ? & ? & ?)|(g' & l' & Hu)]; [done|].
    injection Hu as -> ->. split.
    + split; [by eexists|]. intros _. apply Hhelp. by eexists _, _.
    + by intros ? ? [= <- <-].
  - by destruct Hends as [(? & ? & ? & ?)|(? & ? & ?)].
  - by destruct Hends as [(? & ? & ? & ?)|(? & ? & ?)].
Qed.

(** X14: an option given twice in a row counts once, with its last value:
    the run of [prog -r a -r b rest...] is the run of [prog -r b rest...],
    and likewise for [-S], [-s], [-l], [-t] and [-o].  The runs are
    compared as the events of [Process] record them: the echo of the
    command line in the [cmd:] line, which is not part of [MsgCmd], is
    left aside. *)
Theorem repeated_option_last_wins prog a b rest :
  main (prog :: "-r" :: a :: "-r" :: b :: rest)
  = main (prog :: "-r" :: b :: rest) ∧
  main (prog :: "-S" :: a :: "-S" :: b :: rest)
  = main (prog :: "-S" :: b :: rest) ∧
  main (prog :: "-s" :: a :: "-s" :: b :: rest)
  = main (prog :: "-s" :: b :: rest) ∧
  main (prog :: "-l" :: a :: "-l" :: b :: rest)
  = main (prog :: "-l" :: b :: rest) ∧
  main (prog :: "-t" :: a :: "-t" :: b :: rest)
  = main (prog :: "-t" :: b :: rest) ∧
  main (prog :: "-o" :: a :: "-o" :: b :: rest)
  = main (prog :: "-o" :: b :: rest).
Proof.
  rewrite !main_from_start. unfold main_from, parse_from, Getopt.start.
  repeat split; simpl;
    by do 3 (rewrite (loop_unfold (Getopt.mkData "" (_ :: _ :: _) _));
             simpl).
Qed.

(** X15: after the element [--] the next element is the file to read,
    whatever it looks like, and every further element is ignored: it
    changes no event of the run (the echo of the command line in the
    [cmd:] line, which is not part of [MsgCmd], is left aside). *)
Theorem first_operand_is_the_file prog file extra :
  main (prog :: "--" :: file :: extra) = main [prog; "--"; file].
Proof.
  rewrite !main_from_start. unfold main_from, parse_from, Getopt.start.
  unfold loop. by simpl.
Qed.

(** A field that only the branch of [k] assigns keeps its value through
    the loop when [getopt] never returns [k]. *)
Lemma option_loop_keeps {A} (f : globals → A) (k : ascii) :
  (∀ c a g g', handle_option c a g = Continue g' → c ≠ k → f g' = f g) →
  ∀ fuel d g log g' operands log',
    option_loop fuel d g log = Return (g', operands) log' →
    ¬ Getopt.returns ord optstring d k →
    f g' = f g.
Proof.
  intros Hkeeps fuel. induction fuel as [|fuel IH]; intros d g log g' ops log';
    simpl; [done|].
  destruct (Getopt.getopt ord optstring d) as [[r diag] d'] eqn:Hget.
  destruct r as [c a|ops0]; [|by intros [= <- _ _]].
  destruct (handle_option c a g) as [g1| |] eqn:Hopt; [|done..].
  intros Hloop Hnot. transitivity (f g1).
  - eapply IH; [done|]. intros Hlater. apply Hnot.
    by eapply Getopt.returns_later.
  - eapply Hkeeps; [done|]. intros ->. apply Hnot.
    by eapply Getopt.returns_now.
Qed.

(** X16: whenever [parse_arguments] returns, a parameter whose option
    [getopt] never returned has its initial value: split ratio 0.5,
    switch size 0, minimum hub size 10, the thread count that OpenMP gives
    for 1, no tree file name, level-synchronous construction, no
    verification and no verbosity. *)
Theorem options_not_given_keep_defaults argv g log :
  parse_arguments argv = Return g log →
  let never c := ¬ Getopt.returns ord optstring (Getopt.start argv) c in
  (never "S"%char → split_ratio g = Real_0_5) ∧
  (never "s"%char → switch_size g = Real_0) ∧
  (never "l"%char → min_hub_size g = 10) ∧
  (never "t"%char → nthreads g = omp_get_num_threads 1) ∧
  (never "o"%char → tree_fname g = None) ∧
  (never "A"%char → level_synch g = true) ∧
  (never "T"%char → verify_tree g = false) ∧
  (never "G"%char → verify_graph g = false) ∧
  (never "v"%char → verbose g = false).
Proof.
  unfold parse_arguments.
  destruct (option_loop _ _ _ _) as [[g1 ops] log1|? ?| |] eqn:Hloop;
    [|done..].
  destruct ops as [|file ops]; [done|]. simpl. intros [= <- _].
  pose proof (λ A (f : globals → A) k Hk,
              option_loop_keeps f k Hk _ _ _ _ _ _ _ Hloop) as Hkeep.
  repeat split; intros Hnever; simpl.
  - apply (Hkeep _ split_ratio "S"%char); [option_keeps_field|done].
  - apply (Hkeep _ switch_size "s"%char); [option_keeps_field|done].
  - apply (Hkeep _ min_hub_size "l"%char); [option_keeps_field|done].
  - f_equal.
    apply (Hkeep _ nthreads "t"%char); [option_keeps_field|done].
  - apply (Hkeep _ tree_fname "o"%char); [option_keeps_field|done].
  - apply (Hkeep _ level_synch "A"%char); [option_keeps_field|done].
  - apply (Hkeep _ verify_tree "T"%char); [option_keeps_field|done].
  - apply (Hkeep _ verify_graph "G"%char); [option_keeps_field|done].
  - apply (Hkeep _ verbose "v"%char); [option_keeps_field|done].
Qed.

End Facts.

(** *** The theorems in the example environment *)

Lemma graph_is_correct_any_schedule_witness :
  check_loop (H := Line.sound) Line.three_points 1000
    [[1; 0]; [0; 1]; [2]] [2; 0; 1] true
  = graph_is_correct (H := Line.sound) Line.three_points 1000
      [[1; 0]; [0; 1]; [2]].
Proof.
  apply (graph_is_correct_any_schedule (H := Line.sound));
    [reflexivity|].
  change (seqZ 0 (Z.of_nat (length Line.three_points))) with [0; 1; 2].
  etrans; [apply Permutation_swap|]. apply Permutation_skip.
  apply Permutation_swap.
Defined.

Lemma accepted_graph_is_undirected_witness :
  Z.of_nat 1 ∈ [1; 0] ↔ Z.of_nat 0 ∈ [0; 1].
Proof.
  apply (accepted_graph_is_undirected (H := Line.sound)
           Line.three_points 1000 [[1; 0]; [0; 1]; [2]]).
  - intros p q _ _. simpl. unfold Line.dist. lia.
  - reflexivity.
  - reflexivity.
  - reflexivity.
  - reflexivity.
Defined.

Lemma graph_is_correct_up_to_order_witness :
  graph_is_correct (H := Line.sound) Line.three_points 1000
    [[0; 1]; [1; 0]; [2]]
  = graph_is_correct (H := Line.sound) Line.three_points 1000
      [[1; 0]; [0; 1]; [2]].
Proof.
  apply (graph_is_correct_up_to_order (H := Line.sound)); [reflexivity|].
  repeat constructor; apply Permutation_swap.
Defined.

Lemma verdict_lines_witness :
  ¬ ∃ w, Stdout (MsgGraphVerification w)
         ∈ output (main (H := Line.faulty) ["prog"; "-G"; "pts"]).
Proof.
  intros [w Hin].
  destruct (verdict_lines (H := Line.faulty) ["prog"; "-G"; "pts"] _ _
              eq_refl) as (file & correct & _ & _ & _ & Hgraph).
  apply Hgraph in Hin as (_ & Hpos & _). discriminate Hpos.
Defined.

Lemma options_not_given_keep_defaults_witness :
  ∃ g log,
    parse_arguments (H := Line.sound) ["prog"; "-T"; "pts"] = Return g log ∧
    split_ratio g = 500 ∧ min_hub_size g = 10 ∧ verify_graph g = false.
Proof.
  eexists _, _. split; [reflexivity|].
  destruct (options_not_given_keep_defaults (H := Line.sound)
              ["prog"; "-T"; "pts"] _ _ eq_refl)
    as (HS & _ & Hl & _ & _ & _ & _ & HG & _).
  assert (Hnever : ∀ c, c ≠ "T"%char →
    ¬ Getopt.returns (ord (Env := Line.sound)) optstring
        (Getopt.start ["prog"; "-T"; "pts"]) c).
  { intros c Hc. eapply GetoptFacts.not_returns_step; [reflexivity|done|].
    eapply GetoptFacts.not_returns_end. reflexivity. }
  split; [|split].
  - apply HS, Hnever. discriminate.
  - apply Hl, Hnever. discriminate.
  - apply HG, Hnever. discriminate.
Defined.

End MainExtra.

(** ** [parse_arguments] of the distributed driver *)

Module MainMpiArgsFacts.

Import Process MainMpiArgs.

(** Case analysis on the next test [c == k] of the chain. *)
Ltac case_char c :=
  match goal with
  | |- context [Ascii.eqb c ?k] =>
      destruct (Ascii.eqb_spec c k) as [->|?]
  end.

Section Facts.

Context `{Main.Env} (Real_100 : Main.Real).

Implicit Types (g : globals) (log : list ev) (d : Getopt.getopt_data).
Implicit Types (rank : Z).

Lemma mpi_option_loop_fuel rank fuel1 fuel2 d g log :
  (Getopt.measure d < fuel1)%nat → (Getopt.measure d < fuel2)%nat →
  option_loop rank fuel1 d g log = option_loop rank fuel2 d g log.
Proof.
  revert fuel2 d g log.
  induction fuel1 as [|fuel1 IH]; intros [|fuel2] d g log H1 H2; try lia.
  simpl.
  destruct (Getopt.getopt Main.ord optstring d) as [[r diag] d'] eqn:Hget.
  destruct r as [c a|operands]; [|done].
  apply GetoptFacts.getopt_measure in Hget.
  destruct (handle_option c a g); [|done..]. apply IH; lia.
Qed.

Lemma mpi_loop_unfold rank d g log :
  loop rank d g log =
  let '(r, diag, d') := Getopt.getopt Main.ord optstring d in
  let log' := log ++ diagnostics diag in
  match r with
  | Getopt.GEnd operands => Return (g, operands) log'
  | Getopt.GOpt c optarg =>
      match handle_option c optarg g with
      | Continue g' => loop rank d' g' log'
      | Usage0 => usage rank 0 g log'
      | NullOptarg => Undefined
      end
  end.
Proof.
  unfold loop at 1. simpl.
  destruct (Getopt.getopt Main.ord optstring d) as [[r diag] d'] eqn:Hget.
  destruct r as [c a|operands]; [|done].
  apply GetoptFacts.getopt_measure in Hget.
  destruct (handle_option c a g); [|done..].
  apply mpi_option_loop_fuel; lia.
Qed.

Lemma mpi_option_loop_prepend rank fuel d g l log :
  option_loop rank fuel d g (l ++ log)
  = prepend l (option_loop rank fuel d g log).
Proof.
  revert d g log. induction fuel as [|fuel IH]; intros d g log; simpl;
    [done|].
  destruct (Getopt.getopt Main.ord optstring d) as [[r diag] d'].
  rewrite <- (assoc_L (++)).
  destruct r as [c a|operands]; [|done].
  destruct (handle_option c a g); [apply IH| |done].
  unfold usage. simpl. by rewrite <- (assoc_L (++)).
Qed.

Lemma mpi_after_options_prepend rank g operands l log :
  after_options rank g operands (l ++ log)
  = prepend l (after_options rank g operands log).
Proof.
  destruct operands; simpl; unfold usage; simpl;
    by rewrite <- !(assoc_L (++)).
Qed.

Lemma mpi_handle_option_null c a g :
  handle_option c a g = NullOptarg →
  a = None ∧ c ≠ "?"%char ∧ Getopt.lookup_option optstring c = Some true.
Proof.
  unfold handle_option.
  repeat (case_char c;
          [destruct a;
           first [done|intros _; split; [done|split; [done|reflexivity]]]|]).
  done.
Qed.

(** The loop ends: with the operands, or through [usage(0, isroot)]. *)
Lemma mpi_option_loop_ends rank fuel d g log :
  (Getopt.measure d < fuel)%nat →
  (∃ g' operands log',
     option_loop rank fuel d g log = Return (g', operands) log') ∨
  (∃ log', option_loop rank fuel d g log = Exit 0 log').
Proof.
  revert d g log. induction fuel as [|fuel IH]; intros d g log Hfuel;
    [lia|].
  simpl.
  destruct (Getopt.getopt Main.ord optstring d) as [[r diag] d'] eqn:Hget.
  destruct r as [c a|operands]; [|left; by eexists _, _, _].
  pose proof (GetoptFacts.getopt_measure _ _ _ _ _ _ _ Hget).
  destruct (handle_option c a g) as [g'| |] eqn:Hopt.
  - apply IH. lia.
  - right. by eexists.
  - apply mpi_handle_option_null in Hopt as (-> & Hc & Hlook).
    apply GetoptFacts.getopt_optarg in Hget as [[_ [?|?]]|[[? ?] _]];
      congruence.
Qed.

(** The globals and the status do not depend on the rank. *)
Lemma option_loop_silent rank rank' fuel d g log log' :
  silent (option_loop rank fuel d g log)
  = silent (option_loop rank' fuel d g log').
Proof.
  revert d g log log'.
  induction fuel as [|fuel IH]; intros d g log log'; simpl; [done|].
  destruct (Getopt.getopt Main.ord optstring d) as [[r diag] d'].
  destruct r as [c a|operands]; [|done].
  destruct (handle_option c a g); [apply IH|done..].
Qed.

(** A rank other than the root writes nothing of its own. *)
Lemma option_loop_quiet rank fuel d g log :
  rank ≠ 0 →
  Forall (λ e, is_getopt_message e = true) log →
  Forall (λ e, is_getopt_message e = true)
    (output (option_loop rank fuel d g log)).
Proof.
  intros Hrank. revert d g log.
  induction fuel as [|fuel IH]; intros d g log Hlog; simpl; [constructor|].
  destruct (Getopt.getopt Main.ord optstring d) as [[r diag] d'].
  assert (Hlog' : Forall (λ e : ev, is_getopt_message e = true)
                    (log ++ diagnostics diag)).
  { apply Forall_app. split; [done|]. destruct diag; by repeat constructor. }
  destruct r as [c a|operands]; [|done].
  destruct (handle_option c a g); [by apply IH| |constructor].
  unfold usage, isroot. rewrite bool_decide_eq_false_2 by done.
  simpl. by rewrite app_nil_r.
Qed.

(** X17: [parse_arguments] of the distributed driver ends in the same way
    on every rank: it returns the same globals, or exits with the same
    status, which is 0 or 1.  A rank other than rank 0 writes nothing but
    the messages that [getopt] itself prints. *)
Theorem all_ranks_parse_alike argv :
  (∀ rank rank',
     silent (parse_arguments Real_100 rank argv)
     = silent (parse_arguments Real_100 rank' argv)) ∧
  (∀ rank,
     (∃ g, silent (parse_arguments Real_100 rank argv) = Return g []) ∨
     silent (parse_arguments Real_100 rank argv) = Exit 0 [] ∨
     silent (parse_arguments Real_100 rank argv) = Exit 1 []) ∧
  (∀ rank,
     rank ≠ 0 →
     Forall (λ e, is_getopt_message e = true)
       (output (parse_arguments Real_100 rank argv))).
Proof.
  split; [|split].
  - intros rank rank'. unfold parse_arguments.
    pose proof (option_loop_silent rank rank'
                  (S (Getopt.measure (Getopt.start argv)))
                  (Getopt.start argv) (initial Real_100) [] []) as Hloop.
    destruct (option_loop rank _ _ _ _) as [[g ops] l|st l| |],
      (option_loop rank' _ _ _ _) as [[g' ops'] l'|st' l'| |];
      try done.
    + simpl in Hloop. injection Hloop as <- <-. by destruct ops.
    + simpl in Hloop. by injection Hloop as <-.
  - intros rank. unfold parse_arguments.
    destruct (mpi_option_loop_ends rank (S (Getopt.measure (Getopt.start argv)))
                (Getopt.start argv) (initial Real_100) [])
      as [(g & ops & l & ->)|(l & ->)]; [lia| |].
    + destruct ops; [by right; right|left; by eexists].
    + by right; left.
  - intros rank Hrank. unfold parse_arguments.
    pose proof (option_loop_quiet rank
                  (S (Getopt.measure (Getopt.start argv)))
                  (Getopt.start argv) (initial Real_100) [] Hrank
                  ltac:(constructor)) as Hloop.
    destruct (option_loop rank _ _ _ _) as [[g ops] l|st l| |];
      simpl in *; try done.
    destruct ops; simpl; unfold usage, isroot;
      rewrite bool_decide_eq_false_2 by done; simpl;
      by rewrite ?app_nil_r.
Qed.

(** X18: the distributed driver does not know the options [-t], [-o],
    [-A], [-T] and [-G] of the shared-memory driver: for each of them
    [getopt] prints its message on an invalid option and the run goes on
    with the next element, so that what was meant as the argument of [-t]
    or [-o] is read as an operand.  The echo of the command line by
    rank 0, which is not part of [MsgCmd], is left aside. *)
Theorem shared_memory_options_are_invalid rank prog c rest :
  c ∈ shared_memory_only →
  parse_arguments Real_100 rank (prog :: String "-" (String c "") :: rest)
  = prepend [Stderr (ErrGetopt (Getopt.InvalidOption c))]
      (parse_arguments Real_100 rank (prog :: rest)).
Proof.
  intros Hc. unfold parse_arguments, Getopt.start. simpl tail.
  change (option_loop rank (S (Getopt.measure ?d)) ?d ?g ?l)
    with (loop rank d g l).
  assert (Hstep : ∀ g log,
    loop rank (Getopt.mkData "" (String "-" (String c "") :: rest) []) g log
    = loop rank (Getopt.mkData "" rest []) g
        (log ++ [Stderr (ErrGetopt (Getopt.InvalidOption c))])).
  { intros g log. rewrite mpi_loop_unfold. unfold shared_memory_only in Hc.
    decompose_list_elem_of; by subst. }
  rewrite Hstep. simpl app. unfold loop.
  rewrite <- (app_nil_r [Stderr _]), mpi_option_loop_prepend.
  destruct (option_loop rank _ _ _ _) as [[g ops] l|st l| |];
    cbn [prepend]; try done.
  apply mpi_after_options_prepend.
Qed.

End Facts.

Lemma shared_memory_options_are_invalid_witness :
  parse_arguments (H := Line.sound) 100000 1 ["prog"; "-T"; "pts"]
  = prepend [Stderr (ErrGetopt (Getopt.InvalidOption "T"))]
      (parse_arguments (H := Line.sound) 100000 1 ["prog"; "pts"]).
Proof.
  apply (shared_memory_options_are_invalid (H := Line.sound)).
  unfold shared_memory_only. by repeat constructor.
Defined.

End MainMpiArgsFacts.

(** ** The text of the graph output *)

Module MainMpiExtra.

Import MainMpi MainMpiText MainMpiFacts.

Lemma append_nil_l (s : string) : "" +:+ s = s.
Proof. reflexivity. Qed.

Lemma append_cons c (s t : string) : String c s +:+ t = String c (s +:+ t).
Proof. reflexivity. Qed.

Lemma occurs_digits c d :
  c = " "%char ∨ c = newline_char →
  occurs c (NilEmpty.string_of_uint d) = false.
Proof.
  intros [->| ->]; induction d; simpl; by rewrite ?IHd.
Qed.

(** A number is printed without blank and without line end. *)
Lemma occurs_show c z :
  c = " "%char ∨ c = newline_char → occurs c (show z) = false.
Proof.
  intros Hc. unfold show.
  assert (Hu : ∀ d, occurs c (NilZero.string_of_uint d) = false).
  { intros d. pose proof (occurs_digits c d Hc).
    destruct d; try done. by destruct Hc as [->| ->]. }
  destruct (Z.to_int z) as [d|d]; simpl; [apply Hu|].
  rewrite Hu. by destruct Hc as [->| ->].
Qed.

(** What is printed for a number reads back as this number. *)
Lemma read_show z : read (show z) = Some z.
Proof.
  unfold read, show. rewrite NilZero.isi.
  - simpl. by rewrite DecimalZ.of_to.
  - destruct z; simpl; try done.
    intros [= Hp]. by apply DecimalPos.Unsigned.to_uint_nonnil in Hp.
  - destruct z; simpl; try done.
    intros [= Hp]. by apply DecimalPos.Unsigned.to_uint_nonnil in Hp.
Qed.

Lemma show_inj z z' : show z = show z' → z = z'.
Proof.
  intros Heq. pose proof (read_show z) as Hz. rewrite Heq, read_show in Hz.
  by injection Hz.
Qed.

(** Two texts that agree and in which [c] first occurs at the places
    shown agree before and after these places. *)
Lemma split_at c (s1 s2 r1 r2 : string) :
  occurs c s1 = false → occurs c s2 = false →
  s1 +:+ String c r1 = s2 +:+ String c r2 →
  s1 = s2 ∧ r1 = r2.
Proof.
  revert s2. induction s1 as [|a s1 IH]; intros [|b s2]; simpl;
    rewrite ?append_nil_l, ?append_cons.
  - by intros _ _ [= ->].
  - intros _ [Hb _]%orb_false_iff [= -> _]. by rewrite Ascii.eqb_refl in Hb.
  - intros [Ha _]%orb_false_iff _ [= -> _]. by rewrite Ascii.eqb_refl in Ha.
  - intros [_ H1]%orb_false_iff [_ H2]%orb_false_iff [= -> Heq].
    destruct (IH _ H1 H2 Heq) as [-> ->]. done.
Qed.

Lemma edge_line_append e r :
  edge_line e +:+ r
  = show e.1 +:+ String " " (show e.2 +:+ String newline_char r).
Proof.
  unfold edge_line, newline. by rewrite !append_assoc.
Qed.

Lemma edge_lines_inj es es' : edge_lines es = edge_lines es' → es = es'.
Proof.
  revert es'. induction es as [|e es IH]; intros [|e' es'];
    rewrite ?edge_lines_cons, ?edge_line_append.
  - done.
  - intros Heq. exfalso. revert Heq. simpl.
    destruct (show e'.1); by rewrite ?append_nil_l, ?append_cons.
  - intros Heq. exfalso. revert Heq. simpl.
    destruct (show e.1); by rewrite ?append_nil_l, ?append_cons.
  - intros Heq.
    apply split_at in Heq as [H1 Heq];
      [|apply occurs_show; by left|apply occurs_show; by left].
    apply split_at in Heq as [H2 Heq];
      [|apply occurs_show; by right|apply occurs_show; by right].
    apply show_inj in H1. apply show_inj in H2.
    rewrite (IH _ Heq). f_equal. destruct e, e'. simpl in *. congruence.
Qed.

(** What the loops over the rows have put into the stream. *)
Lemma put_rows_Some mygraph myoffset ids ss s :
  put_rows mygraph myoffset ids ss = Some s →
  s = ss +:+ edge_lines (row_edges mygraph myoffset ids).
Proof.
  revert ss. induction ids as [|i ids IH]; intros ss; simpl.
  - intros [= <-]. by rewrite append_nil_r.
  - destruct (mygraph !! Z.to_nat i) as [row|] eqn:Hrow; [|done]. simpl.
    intros ->%IH. unfold row_edges. simpl.
    rewrite put_row_lines, edge_lines_app, append_assoc.
    by rewrite (list_lookup_total_correct _ _ _ Hrow).
Qed.

(** X19: the text that a rank puts into its buffer determines the edges:
    when two ranks or two runs produce the same text, they have written
    the same edges [(i + myoffset, j)], in the same order.  In particular
    each number is printed without blank or line end, and reads back as
    itself. *)
Theorem buffer_determines_edges mygraph myoffset ids mygraph' myoffset' ids' s :
  put_rows mygraph myoffset ids "" = Some s →
  put_rows mygraph' myoffset' ids' "" = Some s →
  row_edges mygraph myoffset ids = row_edges mygraph' myoffset' ids'.
Proof.
  intros H1%put_rows_Some H2%put_rows_Some.
  rewrite append_nil_l in H1, H2. apply edge_lines_inj. congruence.
Qed.

Lemma buffer_determines_edges_witness :
  row_edges [[1; 0]; [0; 1]] 3 [0; 1]
  = row_edges [[]; [1; 0]; [0; 1]] 2 [1; 2].
Proof.
  apply (buffer_determines_edges _ _ _ _ _ _
           (edge_lines [(3, 1); (3, 0); (4, 0); (4, 1)]));
    reflexivity.
Defined.

(** *** The file as a whole *)

(** X20: the content of [dtree.graph.txt] determines the list of edges
    with their global source ids: when the ranks hold one row per point,
    two runs that write the same file have computed the same edges in the
    same order, however the points are spread over the ranks. *)
Theorem graph_file_determines_edges ranks ranks' :
  Forall (λ r, mysize r = Z.of_nat (length (mygraph r))) ranks →
  Forall (λ r, mysize r = Z.of_nat (length (mygraph r))) ranks' →
  graph_file ranks = graph_file ranks' →
  ranks_edges (mysize <$> ranks) 0 ranks
  = ranks_edges (mysize <$> ranks') 0 ranks'.
Proof.
  intros Hsizes Hsizes'. unfold graph_file.
  destruct (rank_buffers_lines (mysize <$> ranks) 0 ranks Hsizes)
    as (bufs & -> & Hbufs).
  destruct (rank_buffers_lines (mysize <$> ranks') 0 ranks' Hsizes')
    as (bufs' & -> & Hbufs').
  simpl. intros [= Heq]. apply edge_lines_inj. congruence.
Qed.

Lemma graph_file_determines_edges_witness :
  ranks_edges (mysize <$> [mkRank 2 [[1; 0]; [0; 1]]; mkRank 1 [[2]]]) 0
    [mkRank 2 [[1; 0]; [0; 1]]; mkRank 1 [[2]]]
  = ranks_edges (mysize <$> [mkRank 3 [[1; 0]; [0; 1]; [2]]]) 0
      [mkRank 3 [[1; 0]; [0; 1]; [2]]].
Proof.
  apply graph_file_determines_edges.
  - by repeat constructor.
  - by repeat constructor.
  - reflexivity.
Defined.

(** *** The global source ids *)

Lemma exscan_cons n sizes k :
  exscan (n :: sizes) (S k) = n + exscan sizes k.
Proof. reflexivity. Qed.

Lemma exscan_nonneg sizes k :
  Forall (λ n, 0 ≤ n) sizes → 0 ≤ exscan sizes k.
Proof.
  intros Hpos. revert k.
  induction Hpos as [|n sizes Hn _ IH]; intros [|k]; try done.
  rewrite exscan_cons. specialize (IH k). lia.
Qed.

(** The ids of a rank end where the ids of a later rank start. *)
Lemma exscan_gap sizes k k' n :
  Forall (λ n, 0 ≤ n) sizes → sizes !! k = Some n → (k < k')%nat →
  exscan sizes k + n ≤ exscan sizes k'.
Proof.
  intros Hpos. revert k k'.
  induction Hpos as [|m sizes Hm Hpos IH]; intros k k' Hk Hlt; [done|].
  destruct k' as [|k']; [lia|]. rewrite exscan_cons.
  destruct k as [|k]; simpl in Hk.
  - injection Hk as ->. pose proof (exscan_nonneg sizes k' Hpos).
    change (exscan (n :: sizes) 0) with 0. lia.
  - rewrite exscan_cons. specialize (IH k k' Hk). lia.
Qed.

(** X21: the source ids [i + myoffset] written by the ranks do not
    collide: when the ranks hold one row per point, two different rows,
    of one rank or of two, are written under different ids. *)
Theorem global_ids_are_distinct ranks k k' r r' i i' :
  Forall (λ r, mysize r = Z.of_nat (length (mygraph r))) ranks →
  ranks !! k = Some r → ranks !! k' = Some r' →
  is_Some (mygraph r !! i) → is_Some (mygraph r' !! i') →
  (k, i) ≠ (k', i') →
  Z.of_nat i + exscan (mysize <$> ranks) k
  ≠ Z.of_nat i' + exscan (mysize <$> ranks) k'.
Proof.
  intros Hsizes Hk Hk' Hi%lookup_lt_is_Some Hi'%lookup_lt_is_Some Hne Heq.
  assert (Hpos : Forall (λ n, 0 ≤ n) (mysize <$> ranks)).
  { apply Forall_fmap. eapply Forall_impl; [done|]. simpl. intros ? ->. lia. }
  rewrite Forall_forall in Hsizes.
  pose proof (Hsizes r (list_elem_of_lookup_2 _ _ _ Hk)) as Hr.
  pose proof (Hsizes r' (list_elem_of_lookup_2 _ _ _ Hk')) as Hr'.
  assert (Hsk : (mysize <$> ranks) !! k = Some (mysize r))
    by (by rewrite list_lookup_fmap, Hk).
  assert (Hsk' : (mysize <$> ranks) !! k' = Some (mysize r'))
    by (by rewrite list_lookup_fmap, Hk').
  destruct (lt_eq_lt_dec k k') as [[Hlt| ->]|Hlt].
  - pose proof (exscan_gap _ _ _ _ Hpos Hsk Hlt). lia.
  - apply Hne. f_equal. lia.
  - pose proof (exscan_gap _ _ _ _ Hpos Hsk' Hlt). lia.
Qed.

Lemma global_ids_are_distinct_witness :
  Z.of_nat 1
  + exscan (mysize <$> [mkRank 2 [[1; 0]; [0; 1]]; mkRank 1 [[2]]]) 0
  ≠ Z.of_nat 0
    + exscan (mysize <$> [mkRank 2 [[1; 0]; [0; 1]]; mkRank 1 [[2]]]) 1.
Proof.
  apply (global_ids_are_distinct _ 0%nat 1%nat (mkRank 2 [[1; 0]; [0; 1]])
           (mkRank 1 [[2]]) 1%nat 0%nat).
  - by repeat constructor.
  - reflexivity.
  - reflexivity.
  - by eexists.
  - by eexists.
  - discriminate.
Defined.

End MainMpiExtra.
